(** * hetbuilder: the coincidence pipeline of [backend/coincidence_algorithm.cpp]

    A shallow embedding of the four stages of the backend
    ([find_coincidences], [find_unique_pairs], [build_all_supercells],
    [filter_supercells]) together with the properties the design document
    states about them.

    Conventions of the embedding.
    - A C++ [int] is a [Z] that must stay inside the 32-bit signed range.
      Signed overflow is undefined behaviour in C++, so an arithmetic
      operation whose mathematical result leaves the range yields [None].
    - [std::vector<T>] is [list T]; [v[i]] is [nth_error], so an index out
      of range (undefined behaviour as well) yields [None].
    - A function that can run into undefined behaviour returns an [option].
    - The OpenMP loops append inside [#pragma omp ordered], and the pragmas
      vanish when the file is compiled without OpenMP: the loops are
      embedded with their sequential semantics, the result vector being
      threaded through the iterations.
    - The message printed on [std::cout] is not part of the embedding; the
      computation of the number it prints is, since it can be undefined. *)

From Stdlib Require Import ZArith List Bool Lia Sorted.
From Stdlib Require Import Floats Uint63.
Import ListNotations.

Local Open Scope Z_scope.

(** * Part I: the embedding *)

(** ** Undefined behaviour as an error *)

Definition bind {A B : Type} (c : option A) (k : A -> option B) : option B :=
  match c with
  | Some a => k a
  | None => None
  end.

Notation "x <- c ;; k" := (bind c (fun x => k))
  (at level 61, c at next level, right associativity).

(** ** The C++ type [int] *)

Module Int.

Definition min_int : Z := - 2 ^ 31.
Definition max_int : Z := 2 ^ 31 - 1.

Definition in_range (z : Z) : bool := (min_int <=? z) && (z <=? max_int).

Definition checked (z : Z) : option Z := if in_range z then Some z else None.

Definition add (a b : Z) : option Z := checked (a + b).
Definition sub (a b : Z) : option Z := checked (a - b).
Definition mul (a b : Z) : option Z := checked (a * b).

End Int.

(** ** Vectors and loops *)

Definition int1dvec_t := list Z.
Definition int2dvec_t := list (list Z).

(** [v[i]] of [std::vector]. *)
Definition at_ {A : Type} (v : list A) (i : nat) : option A := nth_error v i.

(** A loop whose body may run into undefined behaviour: the state [s] is
    threaded through the iterations, in the order of [l]. *)
Fixpoint for_each {A S : Type} (body : A -> S -> option S) (l : list A) (s : S)
  : option S :=
  match l with
  | [] => Some s
  | x :: l' => s' <- body x s ;; for_each body l' s'
  end.

(** [for (int i = lo; i < hi; i++)]: the values the counter takes. *)
Definition int_range (lo hi : Z) : list Z :=
  map (fun n => lo + Z.of_nat n) (seq 0 (Z.to_nat (hi - lo))).

(** The same loop with a body that cannot fail. *)
Definition for_int {S : Type} (lo hi : Z) (body : Z -> S -> S) (s : S) : S :=
  fold_left (fun acc i => body i acc) (int_range lo hi) s.

(** [(int)pow(n, 4)] for an [int] [n]: the power is computed in [double],
    where it is [n^4] up to rounding, and converted back to [int]; the
    conversion is undefined behaviour unless the value fits in [int], that is
    unless [n^4 <= 2^31 - 1] ([-215 <= n <= 215]). *)
Definition int_pow4 (n : Z) : option Z := Int.checked (n ^ 4).

(** [operator<] of [std::vector<int>]: lexicographic comparison. *)
Fixpoint lex_ltb (a b : int1dvec_t) : bool :=
  match a, b with
  | _, [] => false
  | [], _ :: _ => true
  | x :: a', y :: b' => (x <? y) || ((x =? y) && lex_ltb a' b')
  end.

(** ** Stage 1: [find_coincidences]

    The geometry helpers of math_functions.h and the arithmetic of [double]
    are not among the sources: the search is embedded over any carrier
    [double] and any implementation of the three helpers and of [<]. *)

Section CoincidenceSearch.

Variable double : Type.
(** [double1dvec_t] is [list double], [double2dvec_t] is [list (list double)]. *)
Variable basis_2x2_dot_2d_vector : list (list double) -> int1dvec_t -> list double.
Variable rotate_2d_vector : list double -> double -> list double.
Variable get_distance : list double -> list double -> double.
Variable double_lt : double -> double -> bool.

(** The distance the innermost loop computes for [(i, j, k, l)]. *)
Definition coincidence_norm (A B : list (list double)) (theta : double)
  (i j k l : Z) : double :=
  let vecM := [i; j] in
  let vecN := [k; l] in
  let Am := basis_2x2_dot_2d_vector A vecM in
  let Bn := basis_2x2_dot_2d_vector B vecN in
  let RBn := rotate_2d_vector Bn theta in
  get_distance Am RBn.

(** The body of the innermost loop. *)
Definition coincidence_body (A B : list (list double)) (theta tolerance : double)
  (i j k l : Z) (coincidences : int2dvec_t) : int2dvec_t :=
  let norm := coincidence_norm A B theta i j k l in
  let match_ := double_lt norm tolerance in
  let all_equal := (i =? j) && (j =? k) && (k =? l) in
  if match_ && negb all_equal then
    let row := [i; j; k; l] in
    coincidences ++ [row]
  else coincidences.

(** [nCombinations] is computed before the loops and only printed.
    [Nmax + 1] is evaluated by the first test of the outer loop, whatever
    the window. *)
Definition find_coincidences (A B : list (list double)) (theta : double)
  (Nmin Nmax : Z) (tolerance : double) : option int2dvec_t :=
  width <- Int.sub Nmax Nmin ;;
  points <- Int.add width 1 ;;
  nCombinations <- int_pow4 points ;;
  hi <- Int.add Nmax 1 ;;
  let coincidences :=
    for_int Nmin hi (fun i =>
      for_int Nmin hi (fun j =>
        for_int Nmin hi (fun k =>
          for_int Nmin hi (fun l =>
            coincidence_body A B theta tolerance i j k l)))) [] in
  if (0 <? length coincidences)%nat then Some coincidences else Some [].

End CoincidenceSearch.

(** ** Stage 1 over IEEE 754 binary64

    The helpers over the primitive 64-bit floats.  [cos] and [sin] (libm)
    are parameters. *)

Module IEEE.

Definition double_of_int (z : Z) : float :=
  if z <? 0 then PrimFloat.opp (PrimFloat.of_uint63 (Uint63.of_Z (- z)))
  else PrimFloat.of_uint63 (Uint63.of_Z z).

Definition elt (v : list float) (i : nat) : float := nth i v PrimFloat.zero.
Definition elt2 (m : list (list float)) (i j : nat) : float := elt (nth i m []) j.

(** Modelled from the spec: [basis_2x2_dot_2d_vector] of math_functions.h is
    not among the sources; the design document describes it as the
    "basis-matrix x integer-vector product", [Am = i*A1 + j*A2], the basis
    vectors [A1] and [A2] being the columns of the matrix. *)
Definition basis_2x2_dot_2d_vector (basis : list (list float)) (vec : int1dvec_t)
  : list float :=
  let v0 := double_of_int (nth 0 vec 0) in
  let v1 := double_of_int (nth 1 vec 0) in
  [ PrimFloat.add (PrimFloat.mul (elt2 basis 0 0) v0) (PrimFloat.mul (elt2 basis 0 1) v1);
    PrimFloat.add (PrimFloat.mul (elt2 basis 1 0) v0) (PrimFloat.mul (elt2 basis 1 1) v1) ].

(** Modelled from the spec: [get_distance] of math_functions.h is not among
    the sources; the design document describes it as the "Euclidean distance
    between two vectors". *)
Definition get_distance (a b : list float) : float :=
  let dx := PrimFloat.sub (elt a 0) (elt b 0) in
  let dy := PrimFloat.sub (elt a 1) (elt b 1) in
  PrimFloat.sqrt (PrimFloat.add (PrimFloat.mul dx dx) (PrimFloat.mul dy dy)).

Section Libm.

Variables cos sin : float -> float.

(** Modelled from the spec: [rotate_2d_vector] of math_functions.h is not
    among the sources; the design document describes it as the "2D vector
    rotation by an angle". *)
Definition rotate_2d_vector (vec : list float) (theta : float) : list float :=
  let c := cos theta in
  let s := sin theta in
  [ PrimFloat.sub (PrimFloat.mul c (elt vec 0)) (PrimFloat.mul s (elt vec 1));
    PrimFloat.add (PrimFloat.mul s (elt vec 0)) (PrimFloat.mul c (elt vec 1)) ].

Definition find_coincidences :=
  find_coincidences float basis_2x2_dot_2d_vector rotate_2d_vector get_distance
    PrimFloat.ltb.

End Libm.

End IEEE.

(** ** Stage 2: [find_unique_pairs] *)

(** Modelled from the spec: [find_gcd] is declared in math_functions.h, which
    is not among the sources; the design document lists it among the geometry
    helpers as the "integer GCD of an N-element vector".  The second argument
    is the number of elements taken into account. *)
Definition find_gcd (arr : int1dvec_t) (n : Z) : Z :=
  fold_right Z.gcd 0 (firstn (Z.to_nat n) arr).

(** The body of the inner loop, for the rows [ci = coincidences[i]] and
    [cj = coincidences[j]]. *)
Definition pair_body (ci cj : int1dvec_t) (uniquePairs : int2dvec_t)
  : option int2dvec_t :=
  m1 <- at_ ci 0 ;;
  m2 <- at_ ci 1 ;;
  n1 <- at_ ci 2 ;;
  n2 <- at_ ci 3 ;;
  m3 <- at_ cj 0 ;;
  m4 <- at_ cj 1 ;;
  n3 <- at_ cj 2 ;;
  n4 <- at_ cj 3 ;;
  m14 <- Int.mul m1 m4 ;;
  m23 <- Int.mul m2 m3 ;;
  detM <- Int.sub m14 m23 ;;
  n14 <- Int.mul n1 n4 ;;
  n23 <- Int.mul n2 n3 ;;
  detN <- Int.sub n14 n23 ;;
  if (detM >? 0) && (detN >? 0) then
    let subvec := [m1; m2; m3; m4; n1; n2; n3; n4] in
    let gcd := find_gcd subvec 8 in
    if Z.abs gcd =? 1 then Some (uniquePairs ++ [subvec]) else Some uniquePairs
  else Some uniquePairs.

Definition find_unique_pairs (coincidences : int2dvec_t) : option int2dvec_t :=
  let size := length coincidences in
  uniquePairs <-
    for_each (fun i uniquePairs =>
      for_each (fun j uniquePairs =>
        ci <- at_ coincidences i ;;
        cj <- at_ coincidences j ;;
        pair_body ci cj uniquePairs)
        (seq (i + 1) (size - (i + 1))) uniquePairs)
      (seq 0 size) [] ;;
  if (0 <? length uniquePairs)%nat then Some uniquePairs else Some [].

(** ** Stage 3: [build_all_supercells] *)

(** Modelled from the spec: class [Interface] is declared in atom_class.h,
    which is not among the sources.  The design document gives its content:
    "bottom-layer supercell, rotated top-layer supercell, the combined stacked
    structure, the rotation angle, the 3x3 integer matrices M and N, and the
    resulting space-group number"; the fields follow the arguments of the
    constructor call in [build_all_supercells]. *)
Record Interface (double Atoms : Type) : Type := mkInterface {
  bottomLayer : Atoms;
  topLayer : Atoms;
  stack : Atoms;
  angle : double;
  M : int2dvec_t;
  N : int2dvec_t;
  spaceGroup : Z
}.

Arguments mkInterface {double Atoms}.
Arguments bottomLayer {double Atoms}.
Arguments topLayer {double Atoms}.
Arguments stack {double Atoms}.
Arguments angle {double Atoms}.
Arguments M {double Atoms}.
Arguments N {double Atoms}.
Arguments spaceGroup {double Atoms}.

Section SupercellBuilder.

Variable double : Type.
Variable Atoms : Type.

(** The operations of the structure type (atom_class.h, atom_functions.h).
    [standardize] is a member function that rewrites the structure in place
    and returns the space-group number: here it returns both. *)
Variable make_supercell : Atoms -> int2dvec_t -> Atoms.
Variable rotate_atoms_around_z : Atoms -> double -> Atoms.
Variable stack_atoms : Atoms -> Atoms -> double -> double -> Atoms.
Variable standardize : Atoms -> Z -> Z -> double -> double -> Atoms * Z.

(** The body of the loop over the pairs of one angle. *)
Definition supercell_body (bottom top : Atoms) (theta weight distance : double)
  (no_idealize : Z) (symprec angle_tolerance : double)
  (row : int1dvec_t) (stacks : list (Interface double Atoms))
  : option (list (Interface double Atoms)) :=
  r0 <- at_ row 0 ;;
  r1 <- at_ row 1 ;;
  r2 <- at_ row 2 ;;
  r3 <- at_ row 3 ;;
  r4 <- at_ row 4 ;;
  r5 <- at_ row 5 ;;
  r6 <- at_ row 6 ;;
  r7 <- at_ row 7 ;;
  let M := [[r0; r1; 0]; [r2; r3; 0]; [0; 0; 1]] in
  let N := [[r4; r5; 0]; [r6; r7; 0]; [0; 0; 1]] in
  let bottomLayer := make_supercell bottom M in
  let topLayer := make_supercell top N in
  let topLayerRot := rotate_atoms_around_z topLayer theta in
  let interface := stack_atoms bottomLayer topLayerRot weight distance in
  let '(interface, spacegroup) :=
    standardize interface 1 no_idealize symprec angle_tolerance in
  if negb (spacegroup =? 0) then
    let stack := mkInterface bottomLayer topLayerRot interface theta M N spacegroup in
    Some (stacks ++ [stack])
  else Some stacks.

(** [std::map<double, int2dvec_t>] is given by its entries in the order the
    iterator visits them; [pairs[j]] for [j = 0 .. size-1] visits the rows of
    [pairs] in order. *)
Definition build_all_supercells (bottom top : Atoms)
  (AnglesMN : list (double * int2dvec_t)) (weight distance : double)
  (no_idealize : Z) (symprec angle_tolerance : double)
  : option (list (Interface double Atoms)) :=
  for_each (fun (entry : double * int2dvec_t) stacks =>
    let theta := fst entry in
    let pairs := snd entry in
    for_each
      (supercell_body bottom top theta weight distance no_idealize symprec
         angle_tolerance)
      pairs stacks)
    AnglesMN [].

End SupercellBuilder.

(** ** Stage 4: [filter_supercells]

    [std::set<Interface>] orders its elements with [operator<] of class
    [Interface] (atom_class.h, not among the sources): the comparison is a
    parameter.  The set is represented by the list of its elements in
    increasing order, which is what iterating from [begin()] to [end()]
    yields. *)

Section DeduplicationFilter.

Variable Interface_t : Type.
Variable Interface_lt : Interface_t -> Interface_t -> bool.

(** [std::set::insert]: the element is added at its place unless an
    equivalent element (neither smaller nor larger) is already there. *)
Fixpoint set_insert (x : Interface_t) (s : list Interface_t) : list Interface_t :=
  match s with
  | [] => [x]
  | y :: s' =>
      if Interface_lt x y then x :: y :: s'
      else if Interface_lt y x then y :: set_insert x s'
      else y :: s'
  end.

(** The range constructor inserts the elements from first to last. *)
Definition set_of_range (stacks : list Interface_t) : list Interface_t :=
  fold_left (fun s x => set_insert x s) stacks [].

Definition filter_supercells (stacks : list Interface_t) : list Interface_t :=
  let s := set_of_range stacks in
  let v := s in
  v.

End DeduplicationFilter.

(** * Part II: vocabulary of the statements *)

(** *** Stage 2 *)

(** [t] is built by [find_unique_pairs] from the rows at two positions
    [i < j] of [cs]: row [i] gives [(m1, m2, n1, n2)], row [j] gives
    [(m3, m4, n3, n4)], both determinants are positive and the eight
    components have a greatest common divisor of absolute value 1. *)
Definition formed_from (cs : int2dvec_t) (t : int1dvec_t) : Prop :=
  exists (i j : nat) (ci cj : int1dvec_t) (m1 m2 m3 m4 n1 n2 n3 n4 : Z),
    (i < j)%nat /\
    nth_error cs i = Some ci /\ nth_error cs j = Some cj /\
    firstn 4 ci = [m1; m2; n1; n2] /\
    firstn 4 cj = [m3; m4; n3; n4] /\
    t = [m1; m2; m3; m4; n1; n2; n3; n4] /\
    m1 * m4 - m2 * m3 > 0 /\
    n1 * n4 - n2 * n3 > 0 /\
    Z.abs (find_gcd t 8) = 1 /\
    (forall d : Z, Forall (Z.divide d) t -> Z.abs d = 1).

(** A row [find_unique_pairs] can read without leaving the range of [int]:
    four entries at least, the first four below [2^15] in absolute value. *)
Definition small_row (r : int1dvec_t) : Prop :=
  exists a b c d : Z,
    firstn 4 r = [a; b; c; d] /\
    Z.abs a < 2 ^ 15 /\ Z.abs b < 2 ^ 15 /\ Z.abs c < 2 ^ 15 /\ Z.abs d < 2 ^ 15.

(** *** Stage 1 *)

(** The windows [find_coincidences] can search: the number of points
    [Nmax - Nmin + 1] (negative or zero for an empty window) has a fourth
    power that fits in [int], and [Nmax + 1] is an [int].  Outside, the
    computation of [nCombinations] or the bound of the loops is undefined
    behaviour. *)
Definition window_ok (Nmin Nmax : Z) : Prop :=
  Int.min_int <= Nmax < Int.max_int /\ -215 <= Nmax - Nmin + 1 <= 215.

Section CoincidenceSearchVocabulary.

Variable double : Type.
Variable basis_2x2_dot_2d_vector : list (list double) -> int1dvec_t -> list double.
Variable rotate_2d_vector : list double -> double -> list double.
Variable get_distance : list double -> list double -> double.
Variable double_lt : double -> double -> bool.
Variables A B : list (list double).
Variables theta tolerance : double.

(** What the iteration [(i, j, k, l)] appends. *)
Definition emit (i j k l : Z) : int2dvec_t :=
  if double_lt (coincidence_norm double basis_2x2_dot_2d_vector rotate_2d_vector
                  get_distance A B theta i j k l) tolerance
     && negb ((i =? j) && (j =? k) && (k =? l))
  then [[i; j; k; l]] else [].

(** What the four nested loops over [lo <= _ < hi] append, in order. *)
Definition emitted (lo hi : Z) : int2dvec_t :=
  flat_map (fun i =>
    flat_map (fun j =>
      flat_map (fun k =>
        flat_map (fun l => emit i j k l) (int_range lo hi))
        (int_range lo hi))
      (int_range lo hi))
    (int_range lo hi).

End CoincidenceSearchVocabulary.

(** The sign of a float: not negative, or not a number. *)
Definition nonneg_or_nan (x : spec_float) : bool :=
  match x with
  | S754_nan => true
  | S754_zero _ => true
  | S754_infinity s => negb s
  | S754_finite s _ _ => negb s
  end.

(** Scenario A: two identical square lattices, no rotation. *)

Definition I2 : list (list float) := [[1%float; 0%float]; [0%float; 1%float]].

(** The distance of [(i, j, k, l)] in scenario A once [cos 0 = 1] and
    [sin 0 = 0] are known. *)
Definition norm_A (i j k l : Z) : float :=
  coincidence_norm float IEEE.basis_2x2_dot_2d_vector
    (IEEE.rotate_2d_vector (fun _ => 1%float) (fun _ => 0%float))
    IEEE.get_distance I2 I2 0%float i j k l.

(** The distance is exactly 0 on the identity matches and at least 1
    elsewhere. *)
Definition check_A (i j k l : Z) : bool :=
  if (i =? k) && (j =? l) then PrimFloat.Leibniz.eqb (norm_A i j k l) 0%float
  else PrimFloat.leb 1%float (norm_A i j k l).

(** The quadruples [(i, j, i, j)] of the window [[-2, 2]] with [i <> j], in
    lexicographic order. *)
Definition identity_matches : int2dvec_t :=
  flat_map (fun i =>
    flat_map (fun j => if i =? j then [] else [[i; j; i; j]]) (int_range (-2) 3))
    (int_range (-2) 3).

(** Stand-ins for libm, exact at 0, to run the search on examples. *)
Definition cos_poly (x : float) : float :=
  PrimFloat.sub 1%float (PrimFloat.div (PrimFloat.mul x x) 2%float).
Definition sin_poly (x : float) : float :=
  PrimFloat.sub x (PrimFloat.div (PrimFloat.mul (PrimFloat.mul x x) x) 6%float).

(** A square lattice of half the period. *)
Definition half_I2 : list (list float) :=
  [[0.5%float; 0%float]; [0%float; 0.5%float]].

(** *** Stage 3 *)

Section SupercellBuilderVocabulary.

Variable double : Type.
Variable Atoms : Type.
Variable make_supercell : Atoms -> int2dvec_t -> Atoms.
Variable rotate_atoms_around_z : Atoms -> double -> Atoms.
Variable stack_atoms : Atoms -> Atoms -> double -> double -> Atoms.
Variable standardize : Atoms -> Z -> Z -> double -> double -> Atoms * Z.
Variables bottom top : Atoms.
Variables weight distance : double.
Variable no_idealize : Z.
Variables symprec angle_tolerance : double.

(** The stacked structure of the pair [(r0 .. r7)] at the angle [theta],
    before standardization. *)
Definition stacked (theta : double) (r0 r1 r2 r3 r4 r5 r6 r7 : Z) : Atoms :=
  stack_atoms
    (make_supercell bottom [[r0; r1; 0]; [r2; r3; 0]; [0; 0; 1]])
    (rotate_atoms_around_z
       (make_supercell top [[r4; r5; 0]; [r6; r7; 0]; [0; 0; 1]]) theta)
    weight distance.

(** The space-group number standardization returns for it. *)
Definition spacegroup_of (theta : double) (r0 r1 r2 r3 r4 r5 r6 r7 : Z) : Z :=
  snd (standardize (stacked theta r0 r1 r2 r3 r4 r5 r6 r7) 1 no_idealize symprec
         angle_tolerance).

(** The record built for it. *)
Definition interface_of (theta : double) (r0 r1 r2 r3 r4 r5 r6 r7 : Z)
  : Interface double Atoms :=
  mkInterface
    (make_supercell bottom [[r0; r1; 0]; [r2; r3; 0]; [0; 0; 1]])
    (rotate_atoms_around_z
       (make_supercell top [[r4; r5; 0]; [r6; r7; 0]; [0; 0; 1]]) theta)
    (fst (standardize (stacked theta r0 r1 r2 r3 r4 r5 r6 r7) 1 no_idealize symprec
            angle_tolerance))
    theta
    [[r0; r1; 0]; [r2; r3; 0]; [0; 0; 1]]
    [[r4; r5; 0]; [r6; r7; 0]; [0; 0; 1]]
    (spacegroup_of theta r0 r1 r2 r3 r4 r5 r6 r7).

(** What the iteration for [row] at the angle [theta] appends. *)
Definition emitted_for (theta : double) (row : int1dvec_t)
  : list (Interface double Atoms) :=
  match firstn 8 row with
  | [r0; r1; r2; r3; r4; r5; r6; r7] =>
      if spacegroup_of theta r0 r1 r2 r3 r4 r5 r6 r7 =? 0 then []
      else [interface_of theta r0 r1 r2 r3 r4 r5 r6 r7]
  | _ => []
  end.

(** The interfaces emitted for a whole map, in the order of the loops. *)
Definition emitted_for_map (AnglesMN : list (double * int2dvec_t))
  : list (Interface double Atoms) :=
  flat_map (fun entry => flat_map (emitted_for (fst entry)) (snd entry)) AnglesMN.

End SupercellBuilderVocabulary.

(** *** Stage 4 *)

Section DeduplicationKey.

Variable double : Type.
Variable Atoms : Type.

(** The accessors of the structure type (atom_class.h): the in-plane area of
    the cell and the number of atoms. *)
Variable area : Atoms -> double.
Variable num_atoms : Atoms -> Z.

(** The equivalence key (space_group_number, area, atom_count). *)
Definition equivalence_key (s : Interface double Atoms) : Z * double * Z :=
  (spaceGroup s, area (stack s), num_atoms (stack s)).

(** An order on the keys. *)
Variable key_ltb : Z * double * Z -> Z * double * Z -> bool.

(** Modelled from the spec: [operator<] of class [Interface] is declared in
    atom_class.h, which is not among the sources; the design document says
    the container is "keyed by the equivalence key (space_group_number,
    area, atom_count)" and that "equal-key interfaces collapse to a single
    representative": interfaces are compared by their keys. *)
Definition Interface_operator_lt (a b : Interface double Atoms) : bool :=
  key_ltb (equivalence_key a) (equivalence_key b).

End DeduplicationKey.

(** ** Runs of stages 3 and 4 on a small structure type

    A structure is summed up by its in-plane area and its number of atoms;
    angles are whole degrees.  Standardization classifies a structure by its
    number of atoms modulo 3, and fails (space group 0) on the multiples of
    3. *)

Module Toy.

Definition Atoms : Type := Z * Z.

Definition det_2x2 (m : int2dvec_t) : Z :=
  match m with
  | (a :: b :: _) :: (c :: d :: _) :: _ => a * d - b * c
  | _ => 0
  end.

Definition make_supercell (a : Atoms) (m : int2dvec_t) : Atoms :=
  (fst a * det_2x2 m, snd a * det_2x2 m).

Definition rotate_atoms_around_z (a : Atoms) (theta : Z) : Atoms := a.

Definition stack_atoms (a b : Atoms) (weight distance : Z) : Atoms :=
  (fst a, snd a + snd b).

Definition standardize (a : Atoms) (to_primitive no_idealize : Z)
  (symprec angle_tolerance : Z) : Atoms * Z :=
  (a, snd a mod 3).

Definition area (a : Atoms) : Z := fst a.
Definition num_atoms (a : Atoms) : Z := snd a.

Definition key (s : Interface Z Atoms) : Z * Z * Z :=
  equivalence_key Z Atoms area num_atoms s.

(** The keys compared lexicographically. *)
Definition key_ltb (k1 k2 : Z * Z * Z) : bool :=
  let '(s1, a1, n1) := k1 in
  let '(s2, a2, n2) := k2 in
  (s1 <? s2) || ((s1 =? s2) && ((a1 <? a2) || ((a1 =? a2) && (n1 <? n2)))).

Definition Interface_lt (a b : Interface Z Atoms) : bool :=
  Interface_operator_lt Z Atoms area num_atoms key_ltb a b.

Definition build (bottom top : Atoms) (AnglesMN : list (Z * int2dvec_t))
  : option (list (Interface Z Atoms)) :=
  build_all_supercells Z Atoms make_supercell rotate_atoms_around_z stack_atoms
    standardize bottom top AnglesMN 0 3 0 1 5.

Definition filter (stacks : list (Interface Z Atoms)) : list (Interface Z Atoms) :=
  filter_supercells (Interface Z Atoms) Interface_lt stacks.

(** One angle, three pairs: the first is not classified, the other two are
    and share their key. *)
Definition angles : list (Z * int2dvec_t) :=
  [(30, [[1; 0; 0; 1; 1; 0; 0; 1]; [1; 0; 0; 2; 1; 0; 0; 1]; [2; 0; 0; 1; 1; 0; 0; 1]])].

Definition stacks : list (Interface Z Atoms) :=
  [ mkInterface (2, 2) (1, 2) (2, 4) 30
      [[1; 0; 0]; [0; 2; 0]; [0; 0; 1]] [[1; 0; 0]; [0; 1; 0]; [0; 0; 1]] 1;
    mkInterface (2, 2) (1, 2) (2, 4) 30
      [[2; 0; 0]; [0; 1; 0]; [0; 0; 1]] [[1; 0; 0]; [0; 1; 0]; [0; 0; 1]] 1 ].

End Toy.

(** ** Vocabulary of the further properties *)

(** What the inner loop of [find_unique_pairs] appends for the rows [ci]
    and [cj]. *)
Definition accepted_pair (ci cj : int1dvec_t) : int2dvec_t :=
  match firstn 4 ci, firstn 4 cj with
  | [m1; m2; n1; n2], [m3; m4; n3; n4] =>
      if (m1 * m4 - m2 * m3 >? 0) && (n1 * n4 - n2 * n3 >? 0)
         && (Z.abs (find_gcd [m1; m2; m3; m4; n1; n2; n3; n4] 8) =? 1)
      then [[m1; m2; m3; m4; n1; n2; n3; n4]] else []
  | _, _ => []
  end.

(** The 8-tuple of the same two rows taken in the other order. *)
Definition mirror_pair (t : int1dvec_t) : int1dvec_t :=
  match t with
  | [m1; m2; m3; m4; n1; n2; n3; n4] => [m3; m4; m1; m2; n3; n4; n1; n2]
  | _ => t
  end.

(** A comparison with equivalent but different elements, to run
    [filter_supercells] on integers: only the tens are compared. *)
Definition tens_ltb (a b : Z) : bool := a / 10 <? b / 10.

(** * Part III: properties *)

(** ** Errors, integers, loops *)

Lemma bind_Some {A B : Type} (c : option A) (k : A -> option B) (b : B) :
  bind c k = Some b <-> exists a, c = Some a /\ k a = Some b.
Proof.
  destruct c as [a|]; simpl; split.
  - intros H. exists a. auto.
  - intros (a' & Ha & Hk). injection Ha as ->. exact Hk.
  - discriminate.
  - intros (a' & Ha & _). discriminate.
Qed.

Lemma in_range_iff z : Int.in_range z = true <-> Int.min_int <= z <= Int.max_int.
Proof. unfold Int.in_range. rewrite andb_true_iff, !Z.leb_le. tauto. Qed.

Lemma checked_Some z r :
  Int.checked z = Some r <-> r = z /\ Int.min_int <= z <= Int.max_int.
Proof.
  unfold Int.checked. destruct (Int.in_range z) eqn:E.
  - apply in_range_iff in E. split.
    + intros H. injection H as <-. auto.
    + intros [-> _]. reflexivity.
  - split; [discriminate|]. intros [_ H]. apply in_range_iff in H. congruence.
Qed.

Lemma checked_in z : Int.min_int <= z <= Int.max_int -> Int.checked z = Some z.
Proof. intros H. apply checked_Some. auto. Qed.

(** An invariant of the state survives a loop that terminates normally. *)
Lemma for_each_inv {A S : Type} (P : S -> Prop) (body : A -> S -> option S)
  (l : list A) :
  (forall x s s', In x l -> P s -> body x s = Some s' -> P s') ->
  forall s s', P s -> for_each body l s = Some s' -> P s'.
Proof.
  induction l as [|x l IH]; simpl; intros Hbody s s' Hs Hrun.
  - injection Hrun as <-. exact Hs.
  - apply bind_Some in Hrun. destruct Hrun as (s1 & H1 & H2).
    apply (IH (fun y t t' Hy => Hbody y t t' (or_intror Hy)) s1 s'); auto.
    apply (Hbody x s s1); auto.
Qed.

(** A loop whose iterations are all defined is defined. *)
Lemma for_each_defined {A S : Type} (body : A -> S -> option S) (l : list A) :
  (forall x s, In x l -> exists s', body x s = Some s') ->
  forall s, exists s', for_each body l s = Some s'.
Proof.
  induction l as [|x l IH]; simpl; intros Hbody s.
  - eauto.
  - destruct (Hbody x s (or_introl eq_refl)) as (s1 & H1). rewrite H1. simpl.
    apply IH. intros y t Hy. apply Hbody. auto.
Qed.

(** ** Stage 2: [find_unique_pairs] *)

Lemma at_firstn4 (r : int1dvec_t) (a b c d : Z) :
  at_ r 0 = Some a -> at_ r 1 = Some b -> at_ r 2 = Some c -> at_ r 3 = Some d ->
  firstn 4 r = [a; b; c; d].
Proof.
  unfold at_. destruct r as [|x0 [|x1 [|x2 [|x3 r]]]]; simpl; try discriminate.
  congruence.
Qed.

Lemma firstn4_at (r : int1dvec_t) (a b c d : Z) :
  firstn 4 r = [a; b; c; d] ->
  at_ r 0 = Some a /\ at_ r 1 = Some b /\ at_ r 2 = Some c /\ at_ r 3 = Some d.
Proof.
  unfold at_. destruct r as [|x0 [|x1 [|x2 [|x3 r]]]]; simpl; try discriminate.
  intros H. injection H as -> -> -> ->. auto.
Qed.

Lemma find_gcd_divide (arr : int1dvec_t) (n : Z) (x : Z) :
  In x (firstn (Z.to_nat n) arr) -> (find_gcd arr n | x).
Proof.
  unfold find_gcd. induction (firstn (Z.to_nat n) arr) as [|y l IH]; simpl.
  - tauto.
  - intros [<-|H].
    + apply Z.gcd_divide_l.
    + eapply Z.divide_trans; [apply Z.gcd_divide_r | auto].
Qed.

Lemma find_gcd_greatest (arr : int1dvec_t) (n : Z) (d : Z) :
  Forall (Z.divide d) (firstn (Z.to_nat n) arr) -> (d | find_gcd arr n).
Proof.
  unfold find_gcd. induction 1 as [|y l Hy Hl IH]; simpl.
  - apply Z.divide_0_r.
  - apply Z.gcd_greatest; assumption.
Qed.

Lemma find_gcd_nonneg (arr : int1dvec_t) (n : Z) : 0 <= find_gcd arr n.
Proof.
  unfold find_gcd. destruct (firstn (Z.to_nat n) arr); simpl.
  - lia.
  - apply Z.gcd_nonneg.
Qed.

Lemma find_gcd_scaled (c : Z) (arr : int1dvec_t) (n : Z) :
  find_gcd (map (Z.mul c) arr) n = Z.abs c * find_gcd arr n.
Proof.
  unfold find_gcd. rewrite firstn_map.
  induction (firstn (Z.to_nat n) arr) as [|y l IH]; simpl.
  - lia.
  - rewrite IH, <- (Z.gcd_abs_l (c * y)), Z.abs_mul.
    rewrite Z.gcd_mul_mono_l_nonneg by apply Z.abs_nonneg.
    rewrite Z.gcd_abs_l. reflexivity.
Qed.

(** A primitive vector has no common divisor besides 1 and -1. *)
Lemma primitive_divisors (t : int1dvec_t) :
  length t = 8%nat -> Z.abs (find_gcd t 8) = 1 ->
  forall d : Z, Forall (Z.divide d) t -> Z.abs d = 1.
Proof.
  intros Hlen Hg d Hd.
  assert (Hdiv : (d | find_gcd t 8)).
  { apply find_gcd_greatest. rewrite firstn_all2; [exact Hd|]. rewrite Hlen.
    apply Nat.le_refl. }
  pose proof (find_gcd_nonneg t 8) as Hnn.
  rewrite Z.abs_eq in Hg by exact Hnn. rewrite Hg in Hdiv.
  apply Z.divide_1_r in Hdiv. lia.
Qed.

(** What one iteration of the inner loop does to the result vector. *)
Lemma pair_body_Some (ci cj : int1dvec_t) (u u' : int2dvec_t) :
  pair_body ci cj u = Some u' ->
  u' = u \/
  exists m1 m2 m3 m4 n1 n2 n3 n4 : Z,
    firstn 4 ci = [m1; m2; n1; n2] /\
    firstn 4 cj = [m3; m4; n3; n4] /\
    u' = u ++ [[m1; m2; m3; m4; n1; n2; n3; n4]] /\
    m1 * m4 - m2 * m3 > 0 /\
    n1 * n4 - n2 * n3 > 0 /\
    Z.abs (find_gcd [m1; m2; m3; m4; n1; n2; n3; n4] 8) = 1.
Proof.
  unfold pair_body. intros H.
  repeat (apply bind_Some in H; destruct H as (? & ? & H)).
  repeat match goal with
  | E : Int.mul _ _ = Some _ |- _ => apply checked_Some in E; destruct E as [-> _]
  | E : Int.sub _ _ = Some _ |- _ => apply checked_Some in E; destruct E as [-> _]
  end.
  destruct (_ && _) eqn:Hdet in H.
  - apply andb_true_iff in Hdet. destruct Hdet as [HM HN].
    apply Z.gtb_lt in HM, HN.
    cbv zeta in H. destruct (_ =? 1) eqn:Hg in H.
    + injection H as <-. right. do 8 eexists.
      split; [eapply at_firstn4; eassumption|].
      split; [eapply at_firstn4; eassumption|].
      split; [reflexivity|]. apply Z.eqb_eq in Hg. repeat split; try lia.
    + injection H as <-. auto.
  - injection H as <-. auto.
Qed.

Lemma small_product (a b : Z) :
  Z.abs a < 2 ^ 15 -> Z.abs b < 2 ^ 15 -> Z.abs (a * b) < 2 ^ 30.
Proof.
  intros Ha Hb. rewrite Z.abs_mul.
  change (2 ^ 30) with (2 ^ 15 * 2 ^ 15).
  pose proof (Z.abs_nonneg a). pose proof (Z.abs_nonneg b). nia.
Qed.

Lemma pair_body_defined (ci cj : int1dvec_t) (u : int2dvec_t) :
  small_row ci -> small_row cj -> exists u', pair_body ci cj u = Some u'.
Proof.
  intros (m1 & m2 & n1 & n2 & Hi & B1 & B2 & B3 & B4).
  intros (m3 & m4 & n3 & n4 & Hj & B5 & B6 & B7 & B8).
  apply firstn4_at in Hi, Hj.
  destruct Hi as (E1 & E2 & E3 & E4). destruct Hj as (E5 & E6 & E7 & E8).
  unfold pair_body. rewrite E1, E2, E3, E4, E5, E6, E7, E8. simpl.
  pose proof (small_product m1 m4 B1 B6) as P1.
  pose proof (small_product m2 m3 B2 B5) as P2.
  pose proof (small_product n1 n4 B3 B8) as P3.
  pose proof (small_product n2 n3 B4 B7) as P4.
  unfold Int.mul, Int.sub.
  rewrite (checked_in (m1 * m4)) by (unfold Int.min_int, Int.max_int; lia).
  rewrite (checked_in (m2 * m3)) by (unfold Int.min_int, Int.max_int; lia).
  simpl.
  rewrite (checked_in (m1 * m4 - m2 * m3)) by (unfold Int.min_int, Int.max_int; lia).
  simpl.
  rewrite (checked_in (n1 * n4)) by (unfold Int.min_int, Int.max_int; lia).
  rewrite (checked_in (n2 * n3)) by (unfold Int.min_int, Int.max_int; lia).
  simpl.
  rewrite (checked_in (n1 * n4 - n2 * n3)) by (unfold Int.min_int, Int.max_int; lia).
  simpl.
  destruct (_ && _); [destruct (_ =? 1)|]; eauto.
Qed.

Lemma find_unique_pairs_Forall (cs out : int2dvec_t) :
  find_unique_pairs cs = Some out -> Forall (formed_from cs) out.
Proof.
  unfold find_unique_pairs. intros H.
  apply bind_Some in H. destruct H as (u & Hloop & Hret).
  assert (Hu : Forall (formed_from cs) u).
  { revert Hloop. apply for_each_inv; [|constructor].
    intros i s s' Hi Hs. apply for_each_inv; [|exact Hs].
    intros j r r' Hj Hr Hbody. apply in_seq in Hj.
    apply bind_Some in Hbody. destruct Hbody as (ci & Hci & Hbody).
    apply bind_Some in Hbody. destruct Hbody as (cj & Hcj & Hbody).
    apply pair_body_Some in Hbody.
    destruct Hbody as [->|(m1 & m2 & m3 & m4 & n1 & n2 & n3 & n4 &
                           Ei & Ej & -> & HM & HN & Hg)]; [exact Hr|].
    apply Forall_app. split; [exact Hr|]. constructor; [|constructor].
    exists i, j, ci, cj, m1, m2, m3, m4, n1, n2, n3, n4.
    repeat split; try assumption; try lia.
    apply primitive_divisors; [reflexivity | exact Hg]. }
  destruct (0 <? length u)%nat; injection Hret as <-; [exact Hu | constructor].
Qed.

Lemma find_unique_pairs_defined (cs : int2dvec_t) :
  Forall small_row cs -> exists out, find_unique_pairs cs = Some out.
Proof.
  intros Hcs. unfold find_unique_pairs.
  destruct (for_each_defined
    (fun i uniquePairs =>
       for_each (fun j uniquePairs =>
         ci <- at_ cs i ;; cj <- at_ cs j ;; pair_body ci cj uniquePairs)
         (seq (i + 1) (length cs - (i + 1))) uniquePairs)
    (seq 0 (length cs))) with (s := @nil (list Z)) as (u & Hu).
  - intros i s Hi. apply in_seq in Hi. apply for_each_defined.
    intros j r Hj. apply in_seq in Hj. unfold at_.
    destruct (nth_error cs i) as [ci|] eqn:Ei;
      [|apply nth_error_None in Ei; lia].
    destruct (nth_error cs j) as [cj|] eqn:Ej;
      [|apply nth_error_None in Ej; lia].
    simpl. rewrite Forall_forall in Hcs.
    apply pair_body_defined; apply Hcs; eapply nth_error_In; eassumption.
  - rewrite Hu. simpl. destruct (0 <? length u)%nat; eauto.
Qed.

(** Runs of [find_unique_pairs]: an accepted pair; a list whose only
    accepted pair is primitive, the pair of the doubled rows being rejected;
    a row that is too short; a determinant that leaves the range of [int]. *)

Example find_unique_pairs_ex1 :
  find_unique_pairs [[1; 0; 1; 0]; [0; 1; 0; 1]] = Some [[1; 0; 0; 1; 1; 0; 0; 1]].
Proof. reflexivity. Qed.

Example find_unique_pairs_ex2 :
  find_unique_pairs [[2; 0; 2; 0]; [0; 2; 0; 2]; [0; 1; 0; 1]; [1; 0; 1; 0]]
  = Some [[2; 0; 0; 1; 2; 0; 0; 1]].
Proof. reflexivity. Qed.

Example find_unique_pairs_ex3 :
  find_unique_pairs [[2; 0; 2; 0]; [0; 2; 0; 2]] = Some [].
Proof. reflexivity. Qed.

Example find_unique_pairs_short_row :
  find_unique_pairs [[1; 0; 1]; [0; 1; 0; 1]] = None.
Proof. reflexivity. Qed.

Example find_unique_pairs_overflow :
  find_unique_pairs [[65536; 1; 1; 0]; [-1; -65536; 0; 1]] = None.
Proof. reflexivity. Qed.

(** C2: whatever the coincidence list, every 8-tuple [find_unique_pairs]
    returns is built from the rows at two positions [i < j] of the list (row
    [i] gives m1, m2, n1, n2 and row [j] gives m3, m4, n3, n4), has
    det(M) = m1*m4 - m2*m3 > 0 and det(N) = n1*n4 - n2*n3 > 0, and the
    greatest common divisor of its eight components has absolute value 1.
    A result is returned whenever the rows can be read and multiplied
    inside the range of [int]. *)
Theorem find_unique_pairs_sound (cs : int2dvec_t) :
  (Forall small_row cs -> exists out, find_unique_pairs cs = Some out) /\
  (forall (out : int2dvec_t) (t : int1dvec_t),
     find_unique_pairs cs = Some out -> In t out -> formed_from cs t).
Proof.
  split.
  - apply find_unique_pairs_defined.
  - intros out t Hrun Ht. apply find_unique_pairs_Forall in Hrun.
    rewrite Forall_forall in Hrun. auto.
Qed.

Lemma find_unique_pairs_sound_witness :
  find_unique_pairs [[1; 0; 1; 0]; [0; 1; 0; 1]] = Some [[1; 0; 0; 1; 1; 0; 0; 1]] /\
  formed_from [[1; 0; 1; 0]; [0; 1; 0; 1]] [1; 0; 0; 1; 1; 0; 0; 1].
Proof.
  split; [reflexivity|].
  apply (proj2 (find_unique_pairs_sound [[1; 0; 1; 0]; [0; 1; 0; 1]])
           [[1; 0; 0; 1; 1; 0; 0; 1]]); [reflexivity | simpl; auto].
Defined.

(** C6: when [find_unique_pairs] accepts an 8-tuple, the tuple with every
    component doubled is in no output of [find_unique_pairs], on any input. *)
Theorem find_unique_pairs_rejects_doubled
  (cs out : int2dvec_t) (t : int1dvec_t) (cs' out' : int2dvec_t) :
  find_unique_pairs cs = Some out -> In t out ->
  find_unique_pairs cs' = Some out' ->
  ~ In (map (Z.mul 2) t) out'.
Proof.
  intros _ _ Hrun' Hin.
  apply find_unique_pairs_Forall in Hrun'. rewrite Forall_forall in Hrun'.
  destruct (Hrun' _ Hin) as (i & j & ci & cj & m1 & m2 & m3 & m4 & n1 & n2 & n3 & n4 &
                             _ & _ & _ & _ & _ & _ & _ & _ & Hg & _).
  rewrite find_gcd_scaled in Hg.
  pose proof (find_gcd_nonneg t 8). rewrite Z.abs_mul in Hg. lia.
Qed.

Lemma find_unique_pairs_rejects_doubled_witness :
  In [1; 0; 0; 1; 1; 0; 0; 1] [[1; 0; 0; 1; 1; 0; 0; 1]] /\
  ~ In (map (Z.mul 2) [1; 0; 0; 1; 1; 0; 0; 1]) [[2; 0; 0; 1; 2; 0; 0; 1]].
Proof.
  split; [simpl; auto|].
  apply (find_unique_pairs_rejects_doubled
           [[1; 0; 1; 0]; [0; 1; 0; 1]] [[1; 0; 0; 1; 1; 0; 0; 1]]
           [1; 0; 0; 1; 1; 0; 0; 1]
           [[2; 0; 2; 0]; [0; 2; 0; 2]; [0; 1; 0; 1]; [1; 0; 1; 0]]
           [[2; 0; 0; 1; 2; 0; 0; 1]]);
    [reflexivity | simpl; auto | reflexivity].
Defined.

(** ** Counting loops that only append *)

Lemma int_range_In (lo hi x : Z) : In x (int_range lo hi) <-> lo <= x < hi.
Proof.
  unfold int_range. rewrite in_map_iff. split.
  - intros (n & <- & Hn). apply in_seq in Hn. lia.
  - intros Hx. exists (Z.to_nat (x - lo)). split; [lia|]. apply in_seq. lia.
Qed.

Lemma int_range_sorted (lo hi : Z) : StronglySorted Z.lt (int_range lo hi).
Proof.
  unfold int_range. generalize (Z.to_nat (hi - lo)) as n. intros n.
  generalize 0%nat as s. induction n as [|n IH]; intros s; simpl.
  - constructor.
  - constructor; [apply IH|]. apply Forall_forall. intros y Hy.
    apply in_map_iff in Hy. destruct Hy as (m & <- & Hm). apply in_seq in Hm. lia.
Qed.

Lemma for_int_append {T : Type} (lo hi : Z) (body : Z -> list T -> list T)
  (g : Z -> list T) :
  (forall x s, body x s = s ++ g x) ->
  forall s, for_int lo hi body s = s ++ flat_map g (int_range lo hi).
Proof.
  intros Hbody. unfold for_int. induction (int_range lo hi) as [|x l IH]; simpl; intros s.
  - symmetry. apply app_nil_r.
  - rewrite IH, Hbody, <- app_assoc. reflexivity.
Qed.

Lemma StronglySorted_app {T : Type} (R : T -> T -> Prop) (l1 l2 : list T) :
  StronglySorted R l1 -> StronglySorted R l2 ->
  (forall a b, In a l1 -> In b l2 -> R a b) ->
  StronglySorted R (l1 ++ l2).
Proof.
  induction 1 as [|x l1 Hl1 IH Hx]; simpl; intros H2 Hcross; [exact H2|].
  constructor.
  - apply IH; auto.
  - apply Forall_app. split; [exact Hx|]. apply Forall_forall. auto.
Qed.

Lemma StronglySorted_flat_map {T U : Type} (RT : T -> T -> Prop)
  (RU : U -> U -> Prop) (g : T -> list U) (l : list T) :
  StronglySorted RT l ->
  (forall x, In x l -> StronglySorted RU (g x)) ->
  (forall x y u v, RT x y -> In u (g x) -> In v (g y) -> RU u v) ->
  StronglySorted RU (flat_map g l).
Proof.
  intros Hl Hg Hcross. induction Hl as [|x l Hl IH Hx]; simpl; [constructor|].
  apply StronglySorted_app.
  - apply Hg. simpl. auto.
  - apply IH. intros y Hy. apply Hg. simpl. auto.
  - intros u v Hu Hv. apply in_flat_map in Hv. destruct Hv as (y & Hy & Hv).
    rewrite Forall_forall in Hx. eapply Hcross; eauto.
Qed.

Lemma StronglySorted_nth_error {T : Type} (R : T -> T -> Prop) (l : list T) :
  StronglySorted R l ->
  forall (n m : nat) (a b : T),
    (n < m)%nat -> nth_error l n = Some a -> nth_error l m = Some b -> R a b.
Proof.
  induction 1 as [|x l Hl IH Hx]; intros n m a b Hnm Ha Hb.
  - destruct n; discriminate.
  - destruct m as [|m]; [lia|]. simpl in Hb. destruct n as [|n]; simpl in Ha.
    + injection Ha as <-. rewrite Forall_forall in Hx. apply Hx.
      eapply nth_error_In; eassumption.
    + apply (IH n m); auto. lia.
Qed.

Lemma lex_ltb_cons (x y : Z) (a b : int1dvec_t) :
  lex_ltb (x :: a) (y :: b) = true <-> x < y \/ (x = y /\ lex_ltb a b = true).
Proof.
  simpl. rewrite orb_true_iff, andb_true_iff, Z.ltb_lt, Z.eqb_eq. tauto.
Qed.

Ltac lex_solve :=
  repeat (apply lex_ltb_cons; first [left; lia | right; split; [reflexivity|]]).

(** ** Stage 1: [find_coincidences] *)

Section CoincidenceSearchFacts.

Variable double : Type.
Variable basis_2x2_dot_2d_vector : list (list double) -> int1dvec_t -> list double.
Variable rotate_2d_vector : list double -> double -> list double.
Variable get_distance : list double -> list double -> double.
Variable double_lt : double -> double -> bool.

Local Abbreviation coincidence_norm :=
  (coincidence_norm double basis_2x2_dot_2d_vector rotate_2d_vector get_distance).
Local Abbreviation coincidence_body :=
  (coincidence_body double basis_2x2_dot_2d_vector rotate_2d_vector get_distance
     double_lt).
Local Abbreviation find_coincidences :=
  (find_coincidences double basis_2x2_dot_2d_vector rotate_2d_vector get_distance
     double_lt).

Variables A B : list (list double).
Variables theta tolerance : double.

Local Abbreviation emit :=
  (emit double basis_2x2_dot_2d_vector rotate_2d_vector get_distance double_lt
     A B theta tolerance).
Local Abbreviation emitted :=
  (emitted double basis_2x2_dot_2d_vector rotate_2d_vector get_distance double_lt
     A B theta tolerance).

Lemma coincidence_body_append (i j k l : Z) (s : int2dvec_t) :
  coincidence_body A B theta tolerance i j k l s = s ++ emit i j k l.
Proof.
  unfold coincidence_body, emit. cbv zeta.
  destruct (_ && _); [reflexivity | symmetry; apply app_nil_r].
Qed.

Lemma pow4_small (n : Z) : -215 <= n <= 215 -> 0 <= n ^ 4 <= 2136750625.
Proof.
  intros Hn. replace (n ^ 4) with ((n * n) * (n * n)) by ring.
  assert (0 <= n * n <= 46225) by nia. nia.
Qed.

Lemma find_coincidences_emitted (Nmin Nmax : Z) :
  window_ok Nmin Nmax ->
  find_coincidences A B theta Nmin Nmax tolerance = Some (emitted Nmin (Nmax + 1)).
Proof.
  intros [HN Hw]. unfold find_coincidences, int_pow4, Int.add, Int.sub.
  pose proof (pow4_small (Nmax - Nmin + 1) Hw) as Hp.
  rewrite (checked_in (Nmax - Nmin))
    by (unfold Int.min_int, Int.max_int in *; lia).
  cbn [bind].
  rewrite (checked_in (Nmax - Nmin + 1))
    by (unfold Int.min_int, Int.max_int in *; lia).
  cbn [bind].
  rewrite (checked_in ((Nmax - Nmin + 1) ^ 4))
    by (unfold Int.min_int, Int.max_int in *; lia).
  cbn [bind].
  rewrite (checked_in (Nmax + 1))
    by (unfold Int.min_int, Int.max_int in *; lia).
  cbn [bind].
  set (hi := Nmax + 1).
  assert (E : for_int Nmin hi (fun i =>
                for_int Nmin hi (fun j =>
                  for_int Nmin hi (fun k =>
                    for_int Nmin hi (fun l =>
                      coincidence_body A B theta tolerance i j k l)))) []
              = emitted Nmin hi).
  { unfold emitted. rewrite for_int_append with (g := fun i =>
      flat_map (fun j => flat_map (fun k =>
        flat_map (fun l => emit i j k l) (int_range Nmin hi))
        (int_range Nmin hi)) (int_range Nmin hi)); [reflexivity|].
    intros i s. apply for_int_append.
    intros j s'. apply for_int_append with (g := fun k =>
      flat_map (fun l => emit i j k l) (int_range Nmin hi)).
    intros k s''. apply for_int_append. apply coincidence_body_append. }
  rewrite E. destruct (emitted Nmin hi); reflexivity.
Qed.

Lemma checked_out z : ~ (Int.min_int <= z <= Int.max_int) -> Int.checked z = None.
Proof.
  intros H. destruct (Int.checked z) as [r|] eqn:E; [|reflexivity].
  apply checked_Some in E. tauto.
Qed.

(** Beyond 215 points the computation of [nCombinations] is undefined. *)
Lemma find_coincidences_undefined (Nmin Nmax : Z) :
  ~ (-215 <= Nmax - Nmin + 1 <= 215) ->
  find_coincidences A B theta Nmin Nmax tolerance = None.
Proof.
  intros Hw. unfold find_coincidences, int_pow4, Int.add, Int.sub.
  destruct (Int.checked (Nmax - Nmin)) as [w|] eqn:Ew; [|reflexivity].
  apply checked_Some in Ew. destruct Ew as [-> _]. cbn [bind].
  destruct (Int.checked (Nmax - Nmin + 1)) as [n|] eqn:En; [|reflexivity].
  apply checked_Some in En. destruct En as [-> _]. cbn [bind].
  rewrite checked_out; [reflexivity|].
  replace ((Nmax - Nmin + 1) ^ 4)
    with (((Nmax - Nmin + 1) * (Nmax - Nmin + 1))
          * ((Nmax - Nmin + 1) * (Nmax - Nmin + 1))) by ring.
  assert (46656 <= (Nmax - Nmin + 1) * (Nmax - Nmin + 1)) by nia.
  unfold Int.max_int. nia.
Qed.

Lemma emit_In (i j k l : Z) (row : int1dvec_t) :
  In row (emit i j k l) <->
  row = [i; j; k; l] /\
  double_lt (coincidence_norm A B theta i j k l) tolerance = true /\
  ~ (i = j /\ j = k /\ k = l).
Proof.
  unfold emit.
  destruct (double_lt _ _); simpl.
  - destruct ((i =? j) && (j =? k) && (k =? l)) eqn:E; simpl.
    + apply andb_true_iff in E. destruct E as [E E3].
      apply andb_true_iff in E. destruct E as [E1 E2].
      apply Z.eqb_eq in E1, E2, E3. tauto.
    + assert (~ (i = j /\ j = k /\ k = l)).
      { intros (E1 & E2 & E3). apply Z.eqb_eq in E1, E2, E3.
        rewrite E1, E2, E3 in E. discriminate. }
      split; [intros [<-|[]]; auto | intros (-> & _); auto].
  - split; [tauto | intros (_ & Hf & _); discriminate].
Qed.

Lemma emitted_In (lo hi : Z) (row : int1dvec_t) :
  In row (emitted lo hi) <->
  exists i j k l : Z,
    (lo <= i < hi /\ lo <= j < hi /\ lo <= k < hi /\ lo <= l < hi) /\
    row = [i; j; k; l] /\
    double_lt (coincidence_norm A B theta i j k l) tolerance = true /\
    ~ (i = j /\ j = k /\ k = l).
Proof.
  unfold emitted. rewrite in_flat_map. split.
  - intros (i & Hi & H). apply in_flat_map in H. destruct H as (j & Hj & H).
    apply in_flat_map in H. destruct H as (k & Hk & H).
    apply in_flat_map in H. destruct H as (l & Hl & H).
    apply int_range_In in Hi, Hj, Hk, Hl. apply emit_In in H.
    exists i, j, k, l. tauto.
  - intros (i & j & k & l & (Hi & Hj & Hk & Hl) & H).
    apply int_range_In in Hi, Hj, Hk, Hl.
    exists i. split; [exact Hi|]. apply in_flat_map.
    exists j. split; [exact Hj|]. apply in_flat_map.
    exists k. split; [exact Hk|]. apply in_flat_map.
    exists l. split; [exact Hl|]. apply emit_In. exact H.
Qed.

Lemma emitted_sorted (lo hi : Z) :
  StronglySorted (fun a b => lex_ltb a b = true) (emitted lo hi).
Proof.
  unfold emitted.
  apply StronglySorted_flat_map with (RT := Z.lt); [apply int_range_sorted| |].
  - intros i _.
    apply StronglySorted_flat_map with (RT := Z.lt); [apply int_range_sorted| |].
    + intros j _.
      apply StronglySorted_flat_map with (RT := Z.lt); [apply int_range_sorted| |].
      * intros k _.
        apply StronglySorted_flat_map with (RT := Z.lt); [apply int_range_sorted| |].
        -- intros l _. unfold emit. destruct (_ && _); repeat constructor.
        -- intros l l' u v Hll Hu Hv. apply emit_In in Hu, Hv.
           destruct Hu as (-> & _). destruct Hv as (-> & _). lex_solve.
      * intros k k' u v Hkk Hu Hv.
        apply in_flat_map in Hu, Hv.
        destruct Hu as (l & _ & Hu). destruct Hv as (l' & _ & Hv).
        apply emit_In in Hu, Hv.
        destruct Hu as (-> & _). destruct Hv as (-> & _). lex_solve.
    + intros j j' u v Hjj Hu Hv.
      apply in_flat_map in Hu, Hv.
      destruct Hu as (k & _ & Hu). destruct Hv as (k' & _ & Hv).
      apply in_flat_map in Hu, Hv.
      destruct Hu as (l & _ & Hu). destruct Hv as (l' & _ & Hv).
      apply emit_In in Hu, Hv.
      destruct Hu as (-> & _). destruct Hv as (-> & _). lex_solve.
  - intros i i' u v Hii Hu Hv.
    apply in_flat_map in Hu, Hv.
    destruct Hu as (j & _ & Hu). destruct Hv as (j' & _ & Hv).
    apply in_flat_map in Hu, Hv.
    destruct Hu as (k & _ & Hu). destruct Hv as (k' & _ & Hv).
    apply in_flat_map in Hu, Hv.
    destruct Hu as (l & _ & Hu). destruct Hv as (l' & _ & Hv).
    apply emit_In in Hu, Hv.
    destruct Hu as (-> & _). destruct Hv as (-> & _). lex_solve.
Qed.

(** C1: a quadruple [(i, j, k, l)] is in the output of [find_coincidences]
    if and only if its four indices lie in [[Nmin, Nmax]], the distance
    between [Am = basis_2x2_dot_2d_vector A (i, j)] and the rotation by
    [theta] of [Bn = basis_2x2_dot_2d_vector B (k, l)] is strictly below the
    tolerance, and the four indices are not all equal.  The output holds
    nothing but quadruples.  (The window must be one the code can search,
    [window_ok]: at most 215 points, so that [(int)pow(n, 4)] is defined, and
    [Nmax + 1] an [int].) *)
Theorem find_coincidences_spec (Nmin Nmax : Z) :
  window_ok Nmin Nmax ->
  exists out : int2dvec_t,
    find_coincidences A B theta Nmin Nmax tolerance = Some out /\
    (forall i j k l : Z,
       In [i; j; k; l] out <->
       (Nmin <= i <= Nmax /\ Nmin <= j <= Nmax /\
        Nmin <= k <= Nmax /\ Nmin <= l <= Nmax) /\
       double_lt
         (get_distance (basis_2x2_dot_2d_vector A [i; j])
            (rotate_2d_vector (basis_2x2_dot_2d_vector B [k; l]) theta))
         tolerance = true /\
       ~ (i = j /\ j = k /\ k = l)) /\
    (forall row : int1dvec_t, In row out -> exists i j k l : Z, row = [i; j; k; l]).
Proof.
  intros HN. exists (emitted Nmin (Nmax + 1)).
  split; [apply find_coincidences_emitted; exact HN|]. split.
  - intros i j k l. rewrite emitted_In. split.
    + intros (i' & j' & k' & l' & Hr & E & Hlt & Hne).
      injection E as -> -> -> ->. repeat split; try lia; auto.
    + intros (Hr & Hlt & Hne). exists i, j, k, l. repeat split; try lia; auto.
  - intros row Hrow. apply emitted_In in Hrow.
    destruct Hrow as (i & j & k & l & _ & E & _). eauto.
Qed.

(** C10: the quadruples [find_coincidences] returns are in strictly ascending
    lexicographic order of [(i, j, k, l)]: of two quadruples of the output,
    the one at the earlier position is lexicographically smaller.  (For the
    windows the code can search, [window_ok].) *)
Theorem find_coincidences_lex_sorted (Nmin Nmax : Z) :
  window_ok Nmin Nmax ->
  exists out : int2dvec_t,
    find_coincidences A B theta Nmin Nmax tolerance = Some out /\
    StronglySorted (fun a b => lex_ltb a b = true) out /\
    (forall (n m : nat) (q1 q2 : int1dvec_t),
       (n < m)%nat -> nth_error out n = Some q1 -> nth_error out m = Some q2 ->
       lex_ltb q1 q2 = true).
Proof.
  intros HN. exists (emitted Nmin (Nmax + 1)).
  split; [apply find_coincidences_emitted; exact HN|].
  split; [apply emitted_sorted|].
  apply (StronglySorted_nth_error _ _ (emitted_sorted Nmin (Nmax + 1))).
Qed.

End CoincidenceSearchFacts.

(** ** Stage 1 over IEEE 754 binary64 *)

Lemma binary_round_aux_nonneg (m e : Z) (l : location) :
  nonneg_or_nan (binary_round_aux prec emax false m e l) = true.
Proof.
  unfold binary_round_aux.
  destruct (shr_fexp prec emax m e l) as [mrs' e'].
  destruct (shr_fexp prec emax _ e' loc_Exact) as [mrs'' e''].
  destruct (shr_m mrs''); [reflexivity| |reflexivity].
  destruct (e'' <=? emax - prec); reflexivity.
Qed.

Lemma SFsqrt_nonneg (x : spec_float) :
  nonneg_or_nan (SFsqrt prec emax x) = true.
Proof.
  destruct x as [s|[|]| |[|] m e]; try reflexivity.
  unfold SFsqrt. destruct (SFsqrt_core_binary prec emax (Z.pos m) e) as [[mz ez] lz].
  apply binary_round_aux_nonneg.
Qed.

Lemma SFltb_nonneg_nonpos (d t : spec_float) :
  nonneg_or_nan d = true -> SFleb t (S754_zero false) = true -> SFltb d t = false.
Proof.
  destruct d as [sd|[|]| |[|] md ed]; try discriminate; intros _;
    destruct t as [st|[|]| |[|] mt et]; try discriminate; reflexivity.
Qed.

(** The distance is never below a tolerance that is zero or negative. *)
Lemma get_distance_not_below (a b : list float) (t : float) :
  PrimFloat.leb t 0 = true -> PrimFloat.ltb (IEEE.get_distance a b) t = false.
Proof.
  intros Ht. rewrite FloatAxioms.leb_spec in Ht. rewrite FloatAxioms.ltb_spec.
  apply SFltb_nonneg_nonpos; [|exact Ht].
  unfold IEEE.get_distance. cbv zeta. rewrite FloatAxioms.sqrt_spec. apply SFsqrt_nonneg.
Qed.

Lemma flat_map_nil {T U : Type} (g : T -> list U) (l : list T) :
  (forall x, g x = []) -> flat_map g l = [].
Proof.
  intros Hg. induction l as [|x l IH]; simpl; [reflexivity|].
  rewrite Hg, IH. reflexivity.
Qed.

(** C9: when the tolerance is zero or negative, [find_coincidences] returns
    the empty list, whatever the bases, the angle and the window the code
    can search ([window_ok]): the distance is a square root, hence not
    negative (or not a number), and is never strictly below such a
    tolerance. *)
Theorem find_coincidences_nonpositive_tolerance
  (cos sin : float -> float) (A B : list (list float)) (theta : float)
  (Nmin Nmax : Z) (tolerance : float) :
  window_ok Nmin Nmax ->
  PrimFloat.leb tolerance 0 = true ->
  IEEE.find_coincidences cos sin A B theta Nmin Nmax tolerance = Some [].
Proof.
  intros HN Ht. unfold IEEE.find_coincidences.
  rewrite find_coincidences_emitted by exact HN. f_equal.
  unfold emitted. apply flat_map_nil. intros i.
  apply flat_map_nil. intros j. apply flat_map_nil. intros k.
  apply flat_map_nil. intros l. unfold emit, coincidence_norm. cbv zeta.
  rewrite get_distance_not_below by exact Ht. reflexivity.
Qed.

Lemma SFcompare_chain (t c : spec_float) (m1 : positive) (e1 : Z) :
  SFleb t (S754_finite false m1 e1) = true ->
  SFleb (S754_finite false m1 e1) c = true ->
  SFltb c t = false.
Proof.
  unfold SFleb, SFltb.
  destruct c as [sc|[|]| |[|] mc ec]; simpl; try discriminate;
    destruct t as [st|[|]| |[|] mt et]; simpl; try discriminate; try reflexivity.
  change (Pos.compare_cont Eq) with Pos.compare.
  destruct (Z.compare_spec et e1), (Z.compare_spec e1 ec), (Z.compare_spec ec et);
    try discriminate; try reflexivity; try lia;
    destruct (Pos.compare_spec mt m1), (Pos.compare_spec m1 mc),
             (Pos.compare_spec mc mt);
    try discriminate; try reflexivity; lia.
Qed.

Lemma ltb_false_above_one (t c : float) :
  PrimFloat.leb t 1 = true -> PrimFloat.leb 1 c = true -> PrimFloat.ltb c t = false.
Proof.
  rewrite !FloatAxioms.leb_spec, FloatAxioms.ltb_spec.
  change (Prim2SF 1) with (S754_finite false 4503599627370496 (-52)).
  apply SFcompare_chain.
Qed.

Lemma check_A_window :
  forallb (fun i => forallb (fun j => forallb (fun k => forallb (fun l =>
    check_A i j k l) (int_range (-2) 3)) (int_range (-2) 3)) (int_range (-2) 3))
    (int_range (-2) 3) = true.
Proof. vm_compute. reflexivity. Qed.

Lemma check_A_In (i j k l : Z) :
  In i (int_range (-2) 3) -> In j (int_range (-2) 3) ->
  In k (int_range (-2) 3) -> In l (int_range (-2) 3) ->
  check_A i j k l = true.
Proof.
  intros Hi Hj Hk Hl. pose proof check_A_window as H.
  rewrite forallb_forall in H. specialize (H i Hi).
  rewrite forallb_forall in H. specialize (H j Hj).
  rewrite forallb_forall in H. specialize (H k Hk).
  rewrite forallb_forall in H. exact (H l Hl).
Qed.

Lemma flat_map_ext_In {T U : Type} (f g : T -> list U) (l : list T) :
  (forall x, In x l -> f x = g x) -> flat_map f l = flat_map g l.
Proof.
  induction l as [|x l IH]; simpl; intros H; [reflexivity|].
  rewrite (H x) by auto. rewrite IH by auto. reflexivity.
Qed.

Section ScenarioA.

Variables cos sin : float -> float.
Hypothesis cos_0 : cos 0%float = 1%float.
Hypothesis sin_0 : sin 0%float = 0%float.
Variable t : float.
Hypothesis t_pos : PrimFloat.ltb 0 t = true.
Hypothesis t_le_1 : PrimFloat.leb t 1 = true.

Lemma norm_A_eq (i j k l : Z) :
  coincidence_norm float IEEE.basis_2x2_dot_2d_vector
    (IEEE.rotate_2d_vector cos sin) IEEE.get_distance I2 I2 0%float i j k l
  = norm_A i j k l.
Proof.
  unfold norm_A, coincidence_norm, IEEE.rotate_2d_vector. cbv zeta.
  rewrite cos_0, sin_0. reflexivity.
Qed.

Lemma match_A (i j k l : Z) :
  In i (int_range (-2) 3) -> In j (int_range (-2) 3) ->
  In k (int_range (-2) 3) -> In l (int_range (-2) 3) ->
  PrimFloat.ltb (norm_A i j k l) t = (i =? k) && (j =? l).
Proof.
  intros Hi Hj Hk Hl. pose proof (check_A_In i j k l Hi Hj Hk Hl) as H.
  unfold check_A in H. destruct ((i =? k) && (j =? l)).
  - apply FloatAxioms.Leibniz.eqb_spec in H. rewrite H. exact t_pos.
  - apply ltb_false_above_one; assumption.
Qed.

Lemma emitted_A :
  emitted float IEEE.basis_2x2_dot_2d_vector (IEEE.rotate_2d_vector cos sin)
    IEEE.get_distance PrimFloat.ltb I2 I2 0%float t (-2) 3
  = identity_matches.
Proof.
  transitivity
    (flat_map (fun i => flat_map (fun j => flat_map (fun k => flat_map (fun l =>
       if (i =? k) && (j =? l) && negb ((i =? j) && (j =? k) && (k =? l))
       then [[i; j; k; l]] else [])
       (int_range (-2) 3)) (int_range (-2) 3)) (int_range (-2) 3))
       (int_range (-2) 3)).
  - unfold emitted.
    apply flat_map_ext_In. intros i Hi. apply flat_map_ext_In. intros j Hj.
    apply flat_map_ext_In. intros k Hk. apply flat_map_ext_In. intros l Hl.
    unfold emit. rewrite norm_A_eq, match_A by assumption. reflexivity.
  - vm_compute. reflexivity.
Qed.

End ScenarioA.

Example identity_matches_list :
  identity_matches
  = [[-2; -1; -2; -1]; [-2; 0; -2; 0]; [-2; 1; -2; 1]; [-2; 2; -2; 2];
     [-1; -2; -1; -2]; [-1; 0; -1; 0]; [-1; 1; -1; 1]; [-1; 2; -1; 2];
     [0; -2; 0; -2]; [0; -1; 0; -1]; [0; 1; 0; 1]; [0; 2; 0; 2];
     [1; -2; 1; -2]; [1; -1; 1; -1]; [1; 0; 1; 0]; [1; 2; 1; 2];
     [2; -2; 2; -2]; [2; -1; 2; -1]; [2; 0; 2; 0]; [2; 1; 2; 1]].
Proof. reflexivity. Qed.

Lemma identity_matches_In (i j k l : Z) :
  In [i; j; k; l] identity_matches <->
  (-2 <= i <= 2 /\ -2 <= j <= 2 /\ -2 <= k <= 2 /\ -2 <= l <= 2) /\
  i = k /\ j = l /\ ~ (i = j /\ j = k /\ k = l).
Proof.
  unfold identity_matches. rewrite in_flat_map. split.
  - intros (i' & Hi & H). apply in_flat_map in H. destruct H as (j' & Hj & H).
    apply int_range_In in Hi, Hj.
    destruct (Z.eqb_spec i' j') as [E|E]; simpl in H; [tauto|].
    destruct H as [H|[]]. injection H as <- <- <- <-. repeat split; try lia.
  - intros (Hr & <- & <- & Hne). exists i. split; [apply int_range_In; lia|].
    apply in_flat_map. exists j. split; [apply int_range_In; lia|].
    destruct (Z.eqb_spec i j) as [E|E]; simpl; [|auto].
    exfalso. apply Hne. auto.
Qed.

(** C8: with both bases the 2x2 identity, [theta = 0], the window [[-2, 2]]
    and a tolerance [0 < t <= 1], [find_coincidences] returns exactly the
    quadruples [(i, j, k, l)] of the window with [i = k] and [j = l] that are
    not all equal, and nothing else.  ([cos 0 = 1] and [sin 0 = 0], as libm
    guarantees.) *)
Theorem identical_square_lattices (cos sin : float -> float) (t : float) :
  cos 0%float = 1%float ->
  sin 0%float = 0%float ->
  PrimFloat.ltb 0 t = true ->
  PrimFloat.leb t 1 = true ->
  IEEE.find_coincidences cos sin I2 I2 0%float (-2) 2 t = Some identity_matches /\
  (forall i j k l : Z,
     In [i; j; k; l] identity_matches <->
     (-2 <= i <= 2 /\ -2 <= j <= 2 /\ -2 <= k <= 2 /\ -2 <= l <= 2) /\
     i = k /\ j = l /\ ~ (i = j /\ j = k /\ k = l)) /\
  (forall row : int1dvec_t,
     In row identity_matches -> exists i j k l : Z, row = [i; j; k; l]).
Proof.
  intros Hc Hs Hpos Hle. split; [|split].
  - unfold IEEE.find_coincidences.
    rewrite find_coincidences_emitted
      by (unfold window_ok, Int.min_int, Int.max_int; lia).
    f_equal. apply emitted_A; assumption.
  - apply identity_matches_In.
  - intros row Hrow. unfold identity_matches in Hrow.
    apply in_flat_map in Hrow. destruct Hrow as (i & _ & H).
    apply in_flat_map in H. destruct H as (j & _ & H).
    destruct (i =? j); simpl in H; [tauto|]. destruct H as [<-|[]]. eauto.
Qed.

Lemma identical_square_lattices_witness :
  IEEE.find_coincidences cos_poly sin_poly I2 I2 0%float (-2) 2 0.5%float
  = Some identity_matches /\
  In [-2; 1; -2; 1] identity_matches.
Proof.
  destruct (identical_square_lattices cos_poly sin_poly 0.5%float) as (H1 & H2 & _);
    try reflexivity.
  split; [exact H1|]. apply H2. repeat split; lia.
Defined.

(** Runs of the search over binary64. *)

Example find_coincidences_ex1 :
  IEEE.find_coincidences cos_poly sin_poly I2 half_I2 0%float (-1) 1 0.25%float
  = Some [].
Proof. vm_compute. reflexivity. Qed.

Example find_coincidences_ex2 :
  IEEE.find_coincidences cos_poly sin_poly I2 half_I2 0%float (-2) 2 0.25%float
  = Some [[-1; -1; -2; -2]; [-1; 0; -2; 0]; [-1; 1; -2; 2]; [0; -1; 0; -2];
          [0; 1; 0; 2]; [1; -1; 2; -2]; [1; 0; 2; 0]; [1; 1; 2; 2]].
Proof. vm_compute. reflexivity. Qed.

Example find_coincidences_ex3 :
  IEEE.find_coincidences cos_poly sin_poly I2 I2 0%float 0 0 0.5%float = Some [].
Proof. vm_compute. reflexivity. Qed.

Example find_coincidences_216_points :
  IEEE.find_coincidences cos_poly sin_poly I2 I2 0%float 0 215 0.5%float = None.
Proof. vm_compute. reflexivity. Qed.

Example find_coincidences_far_reversed :
  IEEE.find_coincidences cos_poly sin_poly I2 I2 0%float Int.max_int Int.min_int
    0.5%float = None.
Proof. vm_compute. reflexivity. Qed.

Example find_coincidences_overflow :
  IEEE.find_coincidences cos_poly sin_poly I2 I2 0%float 0 Int.max_int 0.5%float
  = None.
Proof. vm_compute. reflexivity. Qed.

Lemma find_coincidences_spec_witness :
  window_ok (-2) 2 /\
  exists out : int2dvec_t,
    IEEE.find_coincidences cos_poly sin_poly I2 half_I2 0%float (-2) 2 0.25%float
    = Some out /\
    (In [1; -1; 2; -2] out <->
     (-2 <= 1 <= 2 /\ -2 <= -1 <= 2 /\ -2 <= 2 <= 2 /\ -2 <= -2 <= 2) /\
     PrimFloat.ltb
       (IEEE.get_distance (IEEE.basis_2x2_dot_2d_vector I2 [1; -1])
          (IEEE.rotate_2d_vector cos_poly sin_poly
             (IEEE.basis_2x2_dot_2d_vector half_I2 [2; -2]) 0%float))
       0.25%float = true /\
     ~ (1 = -1 /\ -1 = 2 /\ 2 = -2)).
Proof.
  assert (HN : window_ok (-2) 2)
    by (unfold window_ok, Int.min_int, Int.max_int; lia).
  split; [exact HN|].
  destruct (find_coincidences_spec float IEEE.basis_2x2_dot_2d_vector
              (IEEE.rotate_2d_vector cos_poly sin_poly) IEEE.get_distance
              PrimFloat.ltb I2 half_I2 0%float 0.25%float (-2) 2 HN)
    as (out & Hrun & Hin & _).
  exists out. split; [exact Hrun | apply Hin].
Defined.

Lemma find_coincidences_lex_sorted_witness :
  window_ok (-2) 2 /\
  exists out : int2dvec_t,
    IEEE.find_coincidences cos_poly sin_poly I2 half_I2 0%float (-2) 2 0.25%float
    = Some out /\
    StronglySorted (fun a b => lex_ltb a b = true) out.
Proof.
  assert (HN : window_ok (-2) 2)
    by (unfold window_ok, Int.min_int, Int.max_int; lia).
  split; [exact HN|].
  destruct (find_coincidences_lex_sorted float IEEE.basis_2x2_dot_2d_vector
              (IEEE.rotate_2d_vector cos_poly sin_poly) IEEE.get_distance
              PrimFloat.ltb I2 half_I2 0%float 0.25%float (-2) 2 HN)
    as (out & Hrun & Hsorted & _).
  exists out. split; [exact Hrun | exact Hsorted].
Defined.

Lemma find_coincidences_nonpositive_tolerance_witness :
  window_ok (-2) 2 /\
  PrimFloat.leb (-0.25)%float 0 = true /\
  IEEE.find_coincidences cos_poly sin_poly I2 half_I2 0.5%float (-2) 2 (-0.25)%float
  = Some [].
Proof.
  assert (HN : window_ok (-2) 2)
    by (unfold window_ok, Int.min_int, Int.max_int; lia).
  split; [exact HN|]. split; [reflexivity|].
  apply (find_coincidences_nonpositive_tolerance cos_poly sin_poly I2 half_I2
           0.5%float (-2) 2 (-0.25)%float HN).
  reflexivity.
Defined.

(** ** Stage 3: [build_all_supercells] *)

Lemma for_each_append {T U : Type} (body : T -> list U -> option (list U))
  (g : T -> list U) (l : list T) :
  (forall x s, In x l -> body x s = Some (s ++ g x)) ->
  forall s, for_each body l s = Some (s ++ flat_map g l).
Proof.
  induction l as [|x l IH]; simpl; intros Hbody s.
  - rewrite app_nil_r. reflexivity.
  - rewrite Hbody by auto. simpl. rewrite IH by auto.
    rewrite <- app_assoc. reflexivity.
Qed.

Section SupercellBuilderFacts.

Variable double : Type.
Variable Atoms : Type.
Variable make_supercell : Atoms -> int2dvec_t -> Atoms.
Variable rotate_atoms_around_z : Atoms -> double -> Atoms.
Variable stack_atoms : Atoms -> Atoms -> double -> double -> Atoms.
Variable standardize : Atoms -> Z -> Z -> double -> double -> Atoms * Z.

Local Abbreviation supercell_body :=
  (supercell_body double Atoms make_supercell rotate_atoms_around_z stack_atoms
     standardize).
Local Abbreviation build_all_supercells :=
  (build_all_supercells double Atoms make_supercell rotate_atoms_around_z
     stack_atoms standardize).

Variables bottom top : Atoms.
Variables weight distance : double.
Variable no_idealize : Z.
Variables symprec angle_tolerance : double.

Local Abbreviation spacegroup_of :=
  (spacegroup_of double Atoms make_supercell rotate_atoms_around_z stack_atoms
     standardize bottom top weight distance no_idealize symprec angle_tolerance).
Local Abbreviation interface_of :=
  (interface_of double Atoms make_supercell rotate_atoms_around_z stack_atoms
     standardize bottom top weight distance no_idealize symprec angle_tolerance).
Local Abbreviation emitted_for :=
  (emitted_for double Atoms make_supercell rotate_atoms_around_z stack_atoms
     standardize bottom top weight distance no_idealize symprec angle_tolerance).
Local Abbreviation emitted_for_map :=
  (emitted_for_map double Atoms make_supercell rotate_atoms_around_z stack_atoms
     standardize bottom top weight distance no_idealize symprec angle_tolerance).

Lemma supercell_body_append (theta : double) (row : int1dvec_t)
  (stacks : list (Interface double Atoms)) :
  (8 <= length row)%nat ->
  supercell_body bottom top theta weight distance no_idealize symprec
    angle_tolerance row stacks
  = Some (stacks ++ emitted_for theta row).
Proof.
  intros Hlen.
  destruct row as [|r0 [|r1 [|r2 [|r3 [|r4 [|r5 [|r6 [|r7 row]]]]]]]];
    simpl in Hlen; try lia.
  unfold supercell_body, emitted_for, interface_of, spacegroup_of, stacked.
  simpl.
  destruct (standardize _ 1 no_idealize symprec angle_tolerance) as [itf sg].
  simpl. destruct (sg =? 0); simpl; [rewrite app_nil_r|]; reflexivity.
Qed.

Lemma build_all_supercells_emitted (AnglesMN : list (double * int2dvec_t)) :
  (forall theta pairs row,
     In (theta, pairs) AnglesMN -> In row pairs -> (8 <= length row)%nat) ->
  build_all_supercells bottom top AnglesMN weight distance no_idealize symprec
    angle_tolerance
  = Some (emitted_for_map AnglesMN).
Proof.
  intros Hrows. unfold build_all_supercells.
  rewrite for_each_append
    with (g := fun entry => flat_map (emitted_for (fst entry)) (snd entry));
    [reflexivity|].
  intros [theta pairs] s Hentry. simpl.
  apply for_each_append. intros row s' Hrow.
  apply supercell_body_append. eapply Hrows; eassumption.
Qed.

Lemma emitted_for_In (theta : double) (row : int1dvec_t)
  (c : Interface double Atoms) :
  In c (emitted_for theta row) ->
  exists r0 r1 r2 r3 r4 r5 r6 r7 : Z,
    firstn 8 row = [r0; r1; r2; r3; r4; r5; r6; r7] /\
    c = interface_of theta r0 r1 r2 r3 r4 r5 r6 r7 /\
    spacegroup_of theta r0 r1 r2 r3 r4 r5 r6 r7 <> 0.
Proof.
  unfold emitted_for.
  destruct (firstn 8 row) as [|r0 [|r1 [|r2 [|r3 [|r4 [|r5 [|r6 [|r7 [|? ?]]]]]]]]];
    try (intros []).
  destruct (Z.eqb_spec (spacegroup_of theta r0 r1 r2 r3 r4 r5 r6 r7) 0) as [E|E];
    [intros []|].
  intros [<-|[]]. do 8 eexists. eauto.
Qed.

(** C3: for every pair [(r0 .. r7)] of every angle of the map,
    [build_all_supercells] emits the Interface record of the pair if and
    only if standardization of its stacked structure returns a space-group
    number other than 0; with 0 nothing is emitted for the pair and the run
    goes on.  The run always ends with a result, and every Interface of the
    result carries a space-group number other than 0.  (Every row of the map
    must hold its eight components.) *)
Theorem build_all_supercells_spec (AnglesMN : list (double * int2dvec_t)) :
  (forall theta pairs row,
     In (theta, pairs) AnglesMN -> In row pairs -> (8 <= length row)%nat) ->
  exists out : list (Interface double Atoms),
    build_all_supercells bottom top AnglesMN weight distance no_idealize symprec
      angle_tolerance = Some out /\
    out = emitted_for_map AnglesMN /\
    (forall theta pairs row r0 r1 r2 r3 r4 r5 r6 r7,
       In (theta, pairs) AnglesMN -> In row pairs ->
       firstn 8 row = [r0; r1; r2; r3; r4; r5; r6; r7] ->
       (spacegroup_of theta r0 r1 r2 r3 r4 r5 r6 r7 <> 0 ->
        emitted_for theta row = [interface_of theta r0 r1 r2 r3 r4 r5 r6 r7]) /\
       (spacegroup_of theta r0 r1 r2 r3 r4 r5 r6 r7 = 0 ->
        emitted_for theta row = []) /\
       (In (interface_of theta r0 r1 r2 r3 r4 r5 r6 r7) out <->
        spacegroup_of theta r0 r1 r2 r3 r4 r5 r6 r7 <> 0)) /\
    (forall s, In s out -> spaceGroup s <> 0).
Proof.
  intros Hrows. exists (emitted_for_map AnglesMN).
  split; [apply build_all_supercells_emitted; exact Hrows|].
  split; [reflexivity|].
  assert (Hnz : forall s, In s (emitted_for_map AnglesMN) -> spaceGroup s <> 0).
  { intros s Hs. unfold emitted_for_map in Hs.
    apply in_flat_map in Hs. destruct Hs as ([theta pairs] & _ & Hs).
    apply in_flat_map in Hs. destruct Hs as (row & _ & Hs).
    apply emitted_for_In in Hs.
    destruct Hs as (r0 & r1 & r2 & r3 & r4 & r5 & r6 & r7 & _ & -> & Hsg).
    exact Hsg. }
  split; [|exact Hnz].
  intros theta pairs row r0 r1 r2 r3 r4 r5 r6 r7 Hentry Hrow Hfirst.
  assert (Hyes : spacegroup_of theta r0 r1 r2 r3 r4 r5 r6 r7 <> 0 ->
                 emitted_for theta row = [interface_of theta r0 r1 r2 r3 r4 r5 r6 r7]).
  { intros Hsg. unfold emitted_for. rewrite Hfirst.
    destruct (Z.eqb_spec (spacegroup_of theta r0 r1 r2 r3 r4 r5 r6 r7) 0);
      [contradiction | reflexivity]. }
  split; [exact Hyes|]. split.
  - intros Hsg. unfold emitted_for. rewrite Hfirst, Hsg. reflexivity.
  - split.
    + intros Hin. apply (Hnz _ Hin).
    + intros Hsg. unfold emitted_for_map. apply in_flat_map.
      exists (theta, pairs). split; [exact Hentry|]. apply in_flat_map.
      exists row. split; [exact Hrow|]. simpl. rewrite (Hyes Hsg). simpl. auto.
Qed.

End SupercellBuilderFacts.

(** ** Stage 4: [filter_supercells] *)

Section DeduplicationFacts.

Variable Interface_t : Type.
Variable Interface_lt : Interface_t -> Interface_t -> bool.

Local Abbreviation set_insert := (set_insert Interface_t Interface_lt).
Local Abbreviation set_of_range := (set_of_range Interface_t Interface_lt).
Local Abbreviation filter_supercells := (filter_supercells Interface_t Interface_lt).
Local Abbreviation lt := (fun a b => Interface_lt a b = true).

Lemma set_insert_length (x : Interface_t) (s : list Interface_t) :
  (length (set_insert x s) <= S (length s))%nat.
Proof.
  induction s as [|y s IH]; simpl; [lia|].
  destruct (Interface_lt x y); [simpl; lia|].
  destruct (Interface_lt y x); simpl; lia.
Qed.

Lemma set_insert_In (x z : Interface_t) (s : list Interface_t) :
  In z (set_insert x s) -> z = x \/ In z s.
Proof.
  induction s as [|y s IH]; simpl.
  - intros [<-|[]]. auto.
  - destruct (Interface_lt x y); [simpl; intuition auto|].
    destruct (Interface_lt y x); simpl; intuition auto.
Qed.

(** An insertion removes nothing. *)
Lemma set_insert_keeps (x z : Interface_t) (s : list Interface_t) :
  In z s -> In z (set_insert x s).
Proof.
  induction s as [|y s IH]; simpl; [tauto|].
  destruct (Interface_lt x y); [simpl; intuition auto|].
  destruct (Interface_lt y x); simpl; intuition auto.
Qed.

(** After an insertion the set holds the element or an equivalent one. *)
Lemma set_insert_represents (x : Interface_t) (s : list Interface_t) :
  In x (set_insert x s) \/
  exists y, In y (set_insert x s) /\
            Interface_lt x y = false /\ Interface_lt y x = false.
Proof.
  induction s as [|y s IH]; simpl; [auto|].
  destruct (Interface_lt x y) eqn:Exy; [simpl; auto|].
  destruct (Interface_lt y x) eqn:Eyx.
  - destruct IH as [IH|(z & Hz & H)]; [left; simpl; auto|].
    right. exists z. simpl. auto.
  - right. exists y. simpl. auto.
Qed.

Lemma set_of_range_fold (stacks s : list Interface_t) :
  forall z, In z (fold_left (fun s x => set_insert x s) stacks s) ->
            In z stacks \/ In z s.
Proof.
  revert s. induction stacks as [|x stacks IH]; simpl; intros s z Hz; [auto|].
  apply IH in Hz. destruct Hz as [Hz|Hz]; [auto|].
  apply set_insert_In in Hz. destruct Hz as [->|Hz]; auto.
Qed.

Lemma set_of_range_fold_keeps (stacks s : list Interface_t) :
  forall z, In z s -> In z (fold_left (fun s x => set_insert x s) stacks s).
Proof.
  revert s. induction stacks as [|x stacks IH]; simpl; intros s z Hz; [exact Hz|].
  apply IH. apply set_insert_keeps. exact Hz.
Qed.

Lemma set_of_range_fold_length (stacks s : list Interface_t) :
  (length (fold_left (fun s x => set_insert x s) stacks s)
   <= length stacks + length s)%nat.
Proof.
  revert s. induction stacks as [|x stacks IH]; simpl; intros s; [lia|].
  specialize (IH (set_insert x s)). pose proof (set_insert_length x s). lia.
Qed.

Lemma set_of_range_fold_represents (stacks s : list Interface_t) (x : Interface_t) :
  In x stacks ->
  let out := fold_left (fun s x => set_insert x s) stacks s in
  In x out \/
  exists y, In y out /\ Interface_lt x y = false /\ Interface_lt y x = false.
Proof.
  revert s. induction stacks as [|x' stacks IH]; simpl; intros s Hx; [tauto|].
  destruct Hx as [->|Hx]; [|apply IH; exact Hx].
  destruct (set_insert_represents x s) as [H|(y & Hy & H)].
  - left. apply set_of_range_fold_keeps. exact H.
  - right. exists y. split; [apply set_of_range_fold_keeps; exact Hy | exact H].
Qed.

(** The properties [std::set] asks of its comparison that the proofs below
    rely on. *)
Hypothesis lt_irrefl : forall a, Interface_lt a a = false.
Hypothesis lt_trans :
  forall a b c, Interface_lt a b = true -> Interface_lt b c = true ->
                Interface_lt a c = true.

Lemma lt_asym (a b : Interface_t) :
  Interface_lt a b = true -> Interface_lt b a = false.
Proof.
  intros Hab. destruct (Interface_lt b a) eqn:Hba; [|reflexivity].
  rewrite <- (lt_irrefl a). symmetry. eapply lt_trans; eassumption.
Qed.

Lemma set_insert_sorted (x : Interface_t) (s : list Interface_t) :
  StronglySorted lt s -> StronglySorted lt (set_insert x s).
Proof.
  induction 1 as [|y s Hs IH Hy]; simpl; [repeat constructor|].
  destruct (Interface_lt x y) eqn:Exy.
  - constructor; [constructor; assumption|].
    constructor; [exact Exy|]. rewrite Forall_forall in Hy |- *.
    intros z Hz. eapply lt_trans; [exact Exy | apply Hy; exact Hz].
  - destruct (Interface_lt y x) eqn:Eyx; [|constructor; assumption].
    constructor; [exact IH|]. rewrite Forall_forall in Hy |- *.
    intros z Hz. apply set_insert_In in Hz. destruct Hz as [->|Hz]; auto.
Qed.

Lemma set_of_range_fold_sorted (stacks s : list Interface_t) :
  StronglySorted lt s ->
  StronglySorted lt (fold_left (fun s x => set_insert x s) stacks s).
Proof.
  revert s. induction stacks as [|x stacks IH]; simpl; intros s Hs; [exact Hs|].
  apply IH. apply set_insert_sorted. exact Hs.
Qed.

Lemma filter_supercells_sorted (stacks : list Interface_t) :
  StronglySorted lt (filter_supercells stacks).
Proof. apply set_of_range_fold_sorted. constructor. Qed.

(** Inserting an element larger than all the others appends it. *)
Lemma set_insert_last (x : Interface_t) (s : list Interface_t) :
  Forall (fun y => Interface_lt y x = true) s -> set_insert x s = s ++ [x].
Proof.
  induction 1 as [|y s Hy Hs IH]; simpl; [reflexivity|].
  rewrite (lt_asym y x Hy), Hy, IH. reflexivity.
Qed.

Lemma set_of_range_sorted_fold (l s : list Interface_t) :
  StronglySorted lt (s ++ l) ->
  fold_left (fun s x => set_insert x s) l s = s ++ l.
Proof.
  revert s. induction l as [|x l IH]; simpl; intros s Hs.
  - rewrite app_nil_r. reflexivity.
  - assert (Hsx : Forall (fun y => Interface_lt y x = true) s).
    { clear IH. induction s as [|y s IHs]; [constructor|].
      simpl in Hs. inversion Hs as [|? ? Hs' Hy]; subst.
      constructor; [|apply IHs; exact Hs'].
      rewrite Forall_forall in Hy. apply Hy. apply in_or_app. simpl. auto. }
    rewrite (set_insert_last x s Hsx). rewrite IH; rewrite <- app_assoc; [reflexivity|].
    exact Hs.
Qed.

(** C5: [filter_supercells] is idempotent: filtering a filtered list changes
    nothing. *)
Theorem filter_supercells_idempotent (X : list Interface_t) :
  filter_supercells (filter_supercells X) = filter_supercells X.
Proof.
  change (fold_left (fun s x => set_insert x s) (filter_supercells X) []
          = [] ++ filter_supercells X).
  apply set_of_range_sorted_fold. apply filter_supercells_sorted.
Qed.

End DeduplicationFacts.

Section DeduplicationKeys.

Variable double : Type.
Variable Atoms : Type.
Variable area : Atoms -> double.
Variable num_atoms : Atoms -> Z.
Variable key_ltb : Z * double * Z -> Z * double * Z -> bool.

Local Abbreviation equivalence_key := (equivalence_key double Atoms area num_atoms).
Local Abbreviation Interface_lt :=
  (Interface_operator_lt double Atoms area num_atoms key_ltb).
Local Abbreviation filter_supercells :=
  (filter_supercells (Interface double Atoms) Interface_lt).

(** The keys are totally ordered. *)
Hypothesis key_ltb_irrefl : forall k, key_ltb k k = false.
Hypothesis key_ltb_trans :
  forall k1 k2 k3, key_ltb k1 k2 = true -> key_ltb k2 k3 = true ->
                   key_ltb k1 k3 = true.
Hypothesis key_ltb_total :
  forall k1 k2, key_ltb k1 k2 = false -> key_ltb k2 k1 = false -> k1 = k2.

Lemma Interface_lt_trans (a b c : Interface double Atoms) :
  Interface_lt a b = true -> Interface_lt b c = true -> Interface_lt a c = true.
Proof. apply key_ltb_trans. Qed.

Lemma Interface_lt_equal_keys (a b : Interface double Atoms) :
  equivalence_key a = equivalence_key b -> Interface_lt a b = false.
Proof.
  unfold Interface_operator_lt. intros ->. apply key_ltb_irrefl.
Qed.

Lemma Interface_lt_distinct_keys (a b : Interface double Atoms) :
  Interface_lt a b = false -> Interface_lt b a = false ->
  equivalence_key a = equivalence_key b.
Proof. apply key_ltb_total. Qed.

Lemma sorted_keys_NoDup (l : list (Interface double Atoms)) :
  StronglySorted (fun a b => Interface_lt a b = true) l ->
  NoDup (map equivalence_key l).
Proof.
  induction 1 as [|y l Hl IH Hy]; simpl; constructor; [|exact IH].
  intros Hin. apply in_map_iff in Hin. destruct Hin as (z & Hkey & Hz).
  rewrite Forall_forall in Hy. specialize (Hy z Hz).
  rewrite (Interface_lt_equal_keys y z) in Hy by (symmetry; exact Hkey).
  discriminate.
Qed.

(** C4: the output of [filter_supercells] is no longer than its input, holds
    only elements of the input, has pairwise distinct keys
    (space_group_number, area, atom_count), and holds an interface with the
    key of every interface of the input: in particular of every interface
    whose key occurs once in the input, and that interface is then in the
    output itself. *)
Theorem filter_supercells_dedup (stacks : list (Interface double Atoms)) :
  (length (filter_supercells stacks) <= length stacks)%nat /\
  (forall x, In x (filter_supercells stacks) -> In x stacks) /\
  NoDup (map equivalence_key (filter_supercells stacks)) /\
  (forall x, In x stacks ->
     exists y, In y (filter_supercells stacks) /\
               equivalence_key y = equivalence_key x) /\
  (forall x, In x stacks ->
     (forall y, In y stacks -> equivalence_key y = equivalence_key x -> y = x) ->
     In x (filter_supercells stacks)).
Proof.
  assert (Hsub : forall x, In x (filter_supercells stacks) -> In x stacks).
  { intros x Hx. apply set_of_range_fold in Hx. destruct Hx as [Hx|[]]. exact Hx. }
  assert (Hrep : forall x, In x stacks ->
            exists y, In y (filter_supercells stacks) /\
                      equivalence_key y = equivalence_key x).
  { intros x Hx.
    destruct (set_of_range_fold_represents _ Interface_lt stacks [] x Hx)
      as [H|(y & Hy & Hxy & Hyx)].
    - exists x. auto.
    - exists y. split; [exact Hy|]. apply Interface_lt_distinct_keys; assumption. }
  split; [|split; [exact Hsub|split; [|split; [exact Hrep|]]]].
  - pose proof (set_of_range_fold_length _ Interface_lt stacks []) as H.
    simpl in H. rewrite Nat.add_0_r in H. exact H.
  - apply sorted_keys_NoDup. apply filter_supercells_sorted.
    exact Interface_lt_trans.
  - intros x Hx Huniq. destruct (Hrep x Hx) as (y & Hy & Hkey).
    rewrite <- (Huniq y (Hsub y Hy) Hkey). exact Hy.
Qed.

End DeduplicationKeys.

Lemma Toy_key_ltb_iff (k1 k2 : Z * Z * Z) :
  Toy.key_ltb k1 k2 = true <->
  fst (fst k1) < fst (fst k2) \/
  (fst (fst k1) = fst (fst k2) /\
   (snd (fst k1) < snd (fst k2) \/
    (snd (fst k1) = snd (fst k2) /\ snd k1 < snd k2))).
Proof.
  destruct k1 as [[s1 a1] n1], k2 as [[s2 a2] n2]. unfold Toy.key_ltb. simpl.
  rewrite !orb_true_iff, !andb_true_iff, !orb_true_iff, !andb_true_iff.
  rewrite !Z.ltb_lt, !Z.eqb_eq. tauto.
Qed.

Lemma Toy_key_ltb_irrefl (k : Z * Z * Z) : Toy.key_ltb k k = false.
Proof.
  destruct (Toy.key_ltb k k) eqn:E; [|reflexivity].
  apply Toy_key_ltb_iff in E. lia.
Qed.

Lemma Toy_key_ltb_trans (k1 k2 k3 : Z * Z * Z) :
  Toy.key_ltb k1 k2 = true -> Toy.key_ltb k2 k3 = true ->
  Toy.key_ltb k1 k3 = true.
Proof. rewrite !Toy_key_ltb_iff. lia. Qed.

Lemma Toy_key_ltb_total (k1 k2 : Z * Z * Z) :
  Toy.key_ltb k1 k2 = false -> Toy.key_ltb k2 k1 = false -> k1 = k2.
Proof.
  intros H12 H21.
  assert (N12 : ~ (Toy.key_ltb k1 k2 = true)) by (rewrite H12; discriminate).
  assert (N21 : ~ (Toy.key_ltb k2 k1 = true)) by (rewrite H21; discriminate).
  rewrite Toy_key_ltb_iff in N12, N21.
  destruct k1 as [[s1 a1] n1], k2 as [[s2 a2] n2]. simpl in N12, N21.
  assert (s1 = s2) by lia. assert (a1 = a2) by lia. assert (n1 = n2) by lia.
  congruence.
Qed.

Lemma Toy_lt_irrefl (a : Interface Z Toy.Atoms) : Toy.Interface_lt a a = false.
Proof. apply Toy_key_ltb_irrefl. Qed.

Lemma Toy_lt_trans (a b c : Interface Z Toy.Atoms) :
  Toy.Interface_lt a b = true -> Toy.Interface_lt b c = true ->
  Toy.Interface_lt a c = true.
Proof. apply Toy_key_ltb_trans. Qed.

Example build_all_supercells_ex :
  Toy.build (1, 1) (1, 2) Toy.angles = Some Toy.stacks.
Proof. reflexivity. Qed.

Example build_all_supercells_short_row :
  Toy.build (1, 1) (1, 2) [(30, [[1; 0; 0; 1; 1; 0; 0]])] = None.
Proof. reflexivity. Qed.

Example filter_supercells_ex :
  Toy.filter Toy.stacks
  = [ mkInterface (2, 2) (1, 2) (2, 4) 30
        [[1; 0; 0]; [0; 2; 0]; [0; 0; 1]] [[1; 0; 0]; [0; 1; 0]; [0; 0; 1]] 1 ].
Proof. reflexivity. Qed.

Example filter_supercells_ex_Z :
  filter_supercells Z Z.ltb [3; 1; 3; 2; 1] = [1; 2; 3].
Proof. reflexivity. Qed.

Lemma build_all_supercells_spec_witness :
  exists out : list (Interface Z Toy.Atoms),
    Toy.build (1, 1) (1, 2) Toy.angles = Some out /\
    (In (interface_of Z Toy.Atoms Toy.make_supercell Toy.rotate_atoms_around_z
           Toy.stack_atoms Toy.standardize (1, 1) (1, 2) 0 3 0 1 5
           30 1 0 0 2 1 0 0 1) out <->
     spacegroup_of Z Toy.Atoms Toy.make_supercell Toy.rotate_atoms_around_z
       Toy.stack_atoms Toy.standardize (1, 1) (1, 2) 0 3 0 1 5
       30 1 0 0 2 1 0 0 1 <> 0) /\
    (forall s, In s out -> spaceGroup s <> 0).
Proof.
  destruct (build_all_supercells_spec Z Toy.Atoms Toy.make_supercell
              Toy.rotate_atoms_around_z Toy.stack_atoms Toy.standardize
              (1, 1) (1, 2) 0 3 0 1 5 Toy.angles)
    as (out & Hrun & _ & Hpair & Hnz).
  - intros theta pairs row [E|[]] Hrow. injection E as <- <-.
    simpl in Hrow. destruct Hrow as [<-|[<-|[<-|[]]]]; simpl; lia.
  - exists out. split; [exact Hrun|]. split; [|exact Hnz].
    apply (Hpair 30 (snd (hd (0, []) Toy.angles)) [1; 0; 0; 2; 1; 0; 0; 1]);
      simpl; auto.
Defined.

Lemma filter_supercells_dedup_witness :
  (length (Toy.filter Toy.stacks) <= length Toy.stacks)%nat /\
  (forall x, In x (Toy.filter Toy.stacks) -> In x Toy.stacks) /\
  NoDup (map Toy.key (Toy.filter Toy.stacks)) /\
  (forall x, In x Toy.stacks ->
     exists y, In y (Toy.filter Toy.stacks) /\ Toy.key y = Toy.key x) /\
  (forall x, In x Toy.stacks ->
     (forall y, In y Toy.stacks -> Toy.key y = Toy.key x -> y = x) ->
     In x (Toy.filter Toy.stacks)).
Proof.
  exact (filter_supercells_dedup Z Toy.Atoms Toy.area Toy.num_atoms
           Toy.key_ltb Toy_key_ltb_irrefl Toy_key_ltb_trans Toy_key_ltb_total
           Toy.stacks).
Defined.

Lemma filter_supercells_idempotent_witness :
  Toy.filter (Toy.filter Toy.stacks) = Toy.filter Toy.stacks.
Proof.
  exact (filter_supercells_idempotent (Interface Z Toy.Atoms) Toy.Interface_lt
           Toy_lt_irrefl Toy_lt_trans Toy.stacks).
Defined.

(** ** Degenerate inputs *)

(** C7: a coincidence list with fewer than 2 elements makes
    [find_unique_pairs] return the empty list, and an empty angle-to-pairs
    map makes [build_all_supercells] return the empty list; neither run
    fails. *)
Theorem degenerate_inputs_empty (cs : int2dvec_t) :
  (length cs < 2)%nat ->
  find_unique_pairs cs = Some [] /\
  (forall (double Atoms : Type)
          (make_supercell : Atoms -> int2dvec_t -> Atoms)
          (rotate_atoms_around_z : Atoms -> double -> Atoms)
          (stack_atoms : Atoms -> Atoms -> double -> double -> Atoms)
          (standardize : Atoms -> Z -> Z -> double -> double -> Atoms * Z)
          (bottom top : Atoms) (weight distance : double) (no_idealize : Z)
          (symprec angle_tolerance : double),
     build_all_supercells double Atoms make_supercell rotate_atoms_around_z
       stack_atoms standardize bottom top [] weight distance no_idealize symprec
       angle_tolerance = Some []).
Proof.
  intros Hlen. split; [|reflexivity].
  destruct cs as [|c0 [|c1 cs]]; [reflexivity | reflexivity | simpl in Hlen; lia].
Qed.

Lemma degenerate_inputs_empty_witness :
  (length [[3; 1; 4]] < 2)%nat /\
  find_unique_pairs [[3; 1; 4]] = Some [] /\
  Toy.build (1, 1) (1, 2) [] = Some [].
Proof.
  assert (Hlen : (length [[3; 1; 4]] < 2)%nat) by (simpl; lia).
  split; [exact Hlen|].
  destruct (degenerate_inputs_empty [[3; 1; 4]] Hlen) as [H1 H2].
  split; [exact H1|].
  exact (H2 Z Toy.Atoms Toy.make_supercell Toy.rotate_atoms_around_z
           Toy.stack_atoms Toy.standardize (1, 1) (1, 2) 0 3 0 1 5).
Defined.

(** * Part IV: further properties of the four stages *)

(** ** Lists and loops *)

Lemma int_range_empty (lo hi : Z) : hi <= lo -> int_range lo hi = [].
Proof.
  intros H. unfold int_range. destruct (hi - lo) eqn:E; try lia; reflexivity.
Qed.

Lemma int_range_single (n : Z) : int_range n (n + 1) = [n].
Proof.
  unfold int_range. replace (n + 1 - n) with 1 by lia. simpl.
  f_equal. lia.
Qed.

Lemma int_range_length (lo hi : Z) : length (int_range lo hi) = Z.to_nat (hi - lo).
Proof. unfold int_range. rewrite length_map, length_seq. reflexivity. Qed.

Lemma lex_ltb_irrefl (a : int1dvec_t) : lex_ltb a a = false.
Proof.
  induction a as [|x a IH]; simpl; [reflexivity|].
  rewrite Z.ltb_irrefl, IH, andb_false_r. reflexivity.
Qed.

Lemma StronglySorted_NoDup {T : Type} (R : T -> T -> Prop) (l : list T) :
  (forall x, ~ R x x) -> StronglySorted R l -> NoDup l.
Proof.
  intros Hirr. induction 1 as [|x l Hl IH Hx]; constructor; [|exact IH].
  intros Hin. rewrite Forall_forall in Hx. exact (Hirr x (Hx x Hin)).
Qed.

Lemma length_flat_map_le {T U : Type} (g : T -> list U) (c : nat) (l : list T) :
  (forall x, In x l -> (length (g x) <= c)%nat) ->
  (length (flat_map g l) <= c * length l)%nat.
Proof.
  induction l as [|x l IH]; simpl; intros H; [lia|].
  rewrite length_app. specialize (H x (or_introl eq_refl)) as Hx.
  specialize (IH (fun y Hy => H y (or_intror Hy))). lia.
Qed.

(** One element that emits less than the bound leaves a slack of one. *)
Lemma length_flat_map_slack1 {T U : Type} (g : T -> list U) (c : nat) (x0 : T)
  (l : list T) :
  In x0 l ->
  (forall x, In x l -> (length (g x) <= c)%nat) ->
  (length (g x0) + 1 <= c)%nat ->
  (length (flat_map g l) + 1 <= c * length l)%nat.
Proof.
  induction l as [|x l IH]; simpl; intros Hin H H0; [tauto|].
  rewrite length_app. destruct Hin as [->|Hin].
  - pose proof (length_flat_map_le g c l (fun y Hy => H y (or_intror Hy))). lia.
  - specialize (H x (or_introl eq_refl)) as Hx.
    specialize (IH Hin (fun y Hy => H y (or_intror Hy)) H0). lia.
Qed.

(** Every element leaving a slack of one leaves a slack of the length. *)
Lemma length_flat_map_slack {T U : Type} (g : T -> list U) (c : nat) (l : list T) :
  (forall x, In x l -> (length (g x) + 1 <= c)%nat) ->
  (length (flat_map g l) + length l <= c * length l)%nat.
Proof.
  induction l as [|x l IH]; simpl; intros H; [lia|].
  rewrite length_app. specialize (H x (or_introl eq_refl)) as Hx.
  specialize (IH (fun y Hy => H y (or_intror Hy))). lia.
Qed.

(** ** Stage 1: [find_coincidences], further properties *)

Section CoincidenceSearchMore.

Variable double : Type.
Variable basis_2x2_dot_2d_vector : list (list double) -> int1dvec_t -> list double.
Variable rotate_2d_vector : list double -> double -> list double.
Variable get_distance : list double -> list double -> double.
Variable double_lt : double -> double -> bool.

Local Abbreviation find_coincidences :=
  (find_coincidences double basis_2x2_dot_2d_vector rotate_2d_vector get_distance
     double_lt).

Variables A B : list (list double).
Variables theta tolerance : double.

Local Abbreviation emit :=
  (emit double basis_2x2_dot_2d_vector rotate_2d_vector get_distance double_lt
     A B theta tolerance).
Local Abbreviation emitted :=
  (emitted double basis_2x2_dot_2d_vector rotate_2d_vector get_distance double_lt
     A B theta tolerance).

Lemma emit_diagonal (n : Z) : emit n n n n = [].
Proof.
  unfold emit. rewrite Z.eqb_refl. simpl. rewrite andb_false_r. reflexivity.
Qed.

Lemma emit_length (i j k l : Z) : (length (emit i j k l) <= 1)%nat.
Proof. unfold emit. destruct (_ && _); simpl; lia. Qed.

(** X1: a window with at most one point ([Nmax <= Nmin]) yields the empty
    list: either no iteration runs, or the only quadruple has its four
    indices equal.  (For the windows the code can search, [window_ok]: here
    [Nmin - Nmax <= 216].) *)
Theorem find_coincidences_point_window (Nmin Nmax : Z) :
  window_ok Nmin Nmax ->
  Nmax <= Nmin ->
  find_coincidences A B theta Nmin Nmax tolerance = Some [].
Proof.
  intros HN Hw. rewrite find_coincidences_emitted by exact HN. f_equal.
  unfold emitted. destruct (Z.eq_dec Nmax Nmin) as [->|Hne].
  - rewrite int_range_single. simpl. rewrite emit_diagonal. reflexivity.
  - rewrite int_range_empty by lia. reflexivity.
Qed.

(** X2: no quadruple is returned twice.  (For the windows the code can
    search, [window_ok].) *)
Theorem find_coincidences_NoDup (Nmin Nmax : Z) :
  window_ok Nmin Nmax ->
  exists out : int2dvec_t,
    find_coincidences A B theta Nmin Nmax tolerance = Some out /\ NoDup out.
Proof.
  intros HN. exists (emitted Nmin (Nmax + 1)).
  split; [apply find_coincidences_emitted; exact HN|].
  apply StronglySorted_NoDup with (R := fun a b => lex_ltb a b = true).
  - intros x. rewrite lex_ltb_irrefl. discriminate.
  - apply emitted_sorted.
Qed.

(** X3: over a window of [n = Nmax - Nmin + 1] points at most [n^4 - n]
    quadruples are returned: the [n] quadruples with four equal indices are
    never among them.  (For the windows the code can search, [window_ok]:
    [n <= 215].) *)
Theorem find_coincidences_length (Nmin Nmax : Z) :
  window_ok Nmin Nmax ->
  Nmin <= Nmax ->
  exists out : int2dvec_t,
    find_coincidences A B theta Nmin Nmax tolerance = Some out /\
    Z.of_nat (length out) <= (Nmax - Nmin + 1) ^ 4 - (Nmax - Nmin + 1).
Proof.
  intros HN Hw. exists (emitted Nmin (Nmax + 1)).
  split; [apply find_coincidences_emitted; exact HN|].
  set (R := int_range Nmin (Nmax + 1)). set (n := length R).
  assert (Hn : Z.of_nat n = Nmax - Nmin + 1).
  { unfold n, R. rewrite int_range_length. lia. }
  assert (H3 : forall i j k, In k R ->
            (length (flat_map (fun l => emit i j k l) R) <= 1 * n)%nat).
  { intros i j k _. apply length_flat_map_le. intros l _. apply emit_length. }
  assert (H3' : forall i, In i R ->
            (length (flat_map (fun l => emit i i i l) R) + 1 <= 1 * n)%nat).
  { intros i Hi. apply length_flat_map_slack1 with (x0 := i); [exact Hi| |].
    - intros l _. apply emit_length.
    - rewrite emit_diagonal. simpl. lia. }
  assert (H2 : forall i j, (length (flat_map (fun k =>
            flat_map (fun l => emit i j k l) R) R) <= (1 * n) * n)%nat).
  { intros i j. apply length_flat_map_le. intros k Hk. apply H3. exact Hk. }
  assert (H2' : forall i, In i R -> (length (flat_map (fun k =>
            flat_map (fun l => emit i i k l) R) R) + 1 <= (1 * n) * n)%nat).
  { intros i Hi. apply length_flat_map_slack1 with (x0 := i); [exact Hi| |].
    - intros k Hk. apply H3. exact Hk.
    - apply H3'. exact Hi. }
  assert (H1' : forall i, In i R -> (length (flat_map (fun j => flat_map (fun k =>
            flat_map (fun l => emit i j k l) R) R) R) + 1 <= ((1 * n) * n) * n)%nat).
  { intros i Hi. apply length_flat_map_slack1 with (x0 := i); [exact Hi| |].
    - intros j _. apply H2.
    - apply H2'. exact Hi. }
  assert (H0 : (length (emitted Nmin (Nmax + 1)) + n <= (((1 * n) * n) * n) * n)%nat).
  { unfold emitted. fold R. apply length_flat_map_slack. exact H1'. }
  rewrite <- Hn.
  replace (Z.of_nat n ^ 4) with (Z.of_nat ((((1 * n) * n) * n) * n)) by
    (rewrite !Nat2Z.inj_mul; simpl Z.of_nat; ring).
  lia.
Qed.

(** X4: widening the window never loses a quadruple.  (Both windows being
    windows the code can search, [window_ok].) *)
Theorem find_coincidences_window_mono (Nmin Nmax Nmin' Nmax' : Z) :
  window_ok Nmin Nmax -> window_ok Nmin' Nmax' ->
  Nmin' <= Nmin -> Nmax <= Nmax' ->
  exists out out' : int2dvec_t,
    find_coincidences A B theta Nmin Nmax tolerance = Some out /\
    find_coincidences A B theta Nmin' Nmax' tolerance = Some out' /\
    incl out out'.
Proof.
  intros H1 H2 Hlo Hhi.
  exists (emitted Nmin (Nmax + 1)), (emitted Nmin' (Nmax' + 1)).
  split; [apply find_coincidences_emitted; exact H1|].
  split; [apply find_coincidences_emitted; exact H2|].
  intros row Hrow. apply emitted_In in Hrow. apply emitted_In.
  destruct Hrow as (i & j & k & l & Hr & Hrest).
  exists i, j, k, l. split; [lia | exact Hrest].
Qed.

End CoincidenceSearchMore.

(** [<] and [<=] of binary64 chain as expected, NaN included. *)
Lemma SFltb_SFleb_trans (a b c : spec_float) :
  SFltb a b = true -> SFleb b c = true -> SFltb a c = true.
Proof.
  unfold SFltb, SFleb.
  destruct a as [sa|[|]| |[|] ma ea]; simpl;
    destruct b as [sb|[|]| |[|] mb eb]; simpl; try discriminate;
    destruct c as [sc|[|]| |[|] mc ec]; simpl; try discriminate; try reflexivity;
    change (Pos.compare_cont Eq) with Pos.compare;
    destruct (Z.compare_spec ea eb), (Z.compare_spec eb ec), (Z.compare_spec ea ec);
    simpl; try discriminate; try reflexivity; try lia;
    destruct (Pos.compare_spec ma mb), (Pos.compare_spec mb mc),
             (Pos.compare_spec ma mc);
    simpl; try discriminate; try reflexivity; lia.
Qed.

Lemma ltb_leb_trans (x t1 t2 : float) :
  PrimFloat.ltb x t1 = true -> PrimFloat.leb t1 t2 = true ->
  PrimFloat.ltb x t2 = true.
Proof.
  rewrite !FloatAxioms.ltb_spec, FloatAxioms.leb_spec. apply SFltb_SFleb_trans.
Qed.

Section ToleranceMonotone.

(** [double] is binary64 and [<] its comparison; the helpers are any. *)
Variable basis_2x2_dot_2d_vector : list (list float) -> int1dvec_t -> list float.
Variable rotate_2d_vector : list float -> float -> list float.
Variable get_distance : list float -> list float -> float.

Local Abbreviation find_coincidences :=
  (find_coincidences float basis_2x2_dot_2d_vector rotate_2d_vector get_distance
     PrimFloat.ltb).

(** X5: raising the tolerance never loses a quadruple.  (For the windows
    the code can search, [window_ok].) *)
Theorem find_coincidences_tolerance_mono
  (A B : list (list float)) (theta : float) (Nmin Nmax : Z) (t1 t2 : float) :
  window_ok Nmin Nmax ->
  PrimFloat.leb t1 t2 = true ->
  exists out1 out2 : int2dvec_t,
    find_coincidences A B theta Nmin Nmax t1 = Some out1 /\
    find_coincidences A B theta Nmin Nmax t2 = Some out2 /\
    incl out1 out2.
Proof.
  intros HN Ht. do 2 eexists.
  split; [apply find_coincidences_emitted; exact HN|].
  split; [apply find_coincidences_emitted; exact HN|].
  intros row Hrow. apply emitted_In in Hrow. apply emitted_In.
  destruct Hrow as (i & j & k & l & Hr & -> & Hlt & Hne).
  exists i, j, k, l. repeat split; try tauto.
  eapply ltb_leb_trans; eassumption.
Qed.

End ToleranceMonotone.

(** ** Stage 2: [find_unique_pairs], further properties *)

Lemma for_each_append_Some {T U : Type} (body : T -> list U -> option (list U))
  (g : T -> list U) (l : list T) :
  (forall x s s', In x l -> body x s = Some s' -> s' = s ++ g x) ->
  forall s s', for_each body l s = Some s' -> s' = s ++ flat_map g l.
Proof.
  induction l as [|x l IH]; simpl; intros Hbody s s' Hrun.
  - injection Hrun as <-. symmetry. apply app_nil_r.
  - apply bind_Some in Hrun. destruct Hrun as (s1 & H1 & H2).
    apply Hbody in H1; [|auto]. subst s1.
    apply IH in H2; [|intros; eapply Hbody; eauto].
    rewrite H2, <- app_assoc. reflexivity.
Qed.

Lemma pair_body_accepted (ci cj : int1dvec_t) (u u' : int2dvec_t) :
  pair_body ci cj u = Some u' -> u' = u ++ accepted_pair ci cj.
Proof.
  unfold pair_body. intros H.
  repeat (apply bind_Some in H; destruct H as (? & ? & H)).
  repeat match goal with
  | E : Int.mul _ _ = Some _ |- _ => apply checked_Some in E; destruct E as [-> _]
  | E : Int.sub _ _ = Some _ |- _ => apply checked_Some in E; destruct E as [-> _]
  end.
  unfold accepted_pair.
  erewrite (at_firstn4 ci), (at_firstn4 cj) by eassumption.
  cbv zeta in H. destruct (_ && _) in H |- *; simpl.
  - destruct (_ =? 1) in H |- *; injection H as <-;
      [reflexivity | symmetry; apply app_nil_r].
  - injection H as <-. symmetry. apply app_nil_r.
Qed.

(** The result of a run, pair of positions by pair of positions. *)
Lemma find_unique_pairs_accepted (cs out : int2dvec_t) :
  find_unique_pairs cs = Some out ->
  out = flat_map (fun i =>
          flat_map (fun j =>
            match nth_error cs i, nth_error cs j with
            | Some ci, Some cj => accepted_pair ci cj
            | _, _ => []
            end) (seq (i + 1) (length cs - (i + 1)))) (seq 0 (length cs)).
Proof.
  unfold find_unique_pairs. intros H.
  apply bind_Some in H. destruct H as (u & Hloop & Hret).
  assert (Hout : out = u).
  { destruct u; simpl in Hret; injection Hret as <-; reflexivity. }
  subst u. change out with ([] ++ out) in Hloop at 1. simpl in Hloop.
  apply (for_each_append_Some _ (fun i =>
          flat_map (fun j =>
            match nth_error cs i, nth_error cs j with
            | Some ci, Some cj => accepted_pair ci cj
            | _, _ => []
            end) (seq (i + 1) (length cs - (i + 1))))) in Hloop; [exact Hloop|].
  intros i s s' _. apply for_each_append_Some.
  intros j r r' _ Hbody. unfold at_ in Hbody.
  apply bind_Some in Hbody. destruct Hbody as (ci & Hci & Hbody).
  apply bind_Some in Hbody. destruct Hbody as (cj & Hcj & Hbody).
  rewrite Hci, Hcj. apply pair_body_accepted. exact Hbody.
Qed.

Lemma accepted_pair_length (ci cj : int1dvec_t) :
  (length (accepted_pair ci cj) <= 1)%nat.
Proof.
  unfold accepted_pair.
  destruct (firstn 4 ci) as [|? [|? [|? [|? [|? ?]]]]]; try (simpl; lia);
    destruct (firstn 4 cj) as [|? [|? [|? [|? [|? ?]]]]]; try (simpl; lia).
  match goal with |- context [if ?b then _ else _] => destruct b end; simpl; lia.
Qed.

(** X6: [find_unique_pairs] misses no pair: the 8-tuple of the rows at any
    two positions [i < j] is in the output as soon as both determinants are
    positive and the test on the gcd passes. *)
Theorem find_unique_pairs_complete (cs out : int2dvec_t) (i j : nat)
  (ci cj : int1dvec_t) (m1 m2 m3 m4 n1 n2 n3 n4 : Z) :
  find_unique_pairs cs = Some out ->
  (i < j)%nat ->
  nth_error cs i = Some ci -> nth_error cs j = Some cj ->
  firstn 4 ci = [m1; m2; n1; n2] ->
  firstn 4 cj = [m3; m4; n3; n4] ->
  m1 * m4 - m2 * m3 > 0 ->
  n1 * n4 - n2 * n3 > 0 ->
  Z.abs (find_gcd [m1; m2; m3; m4; n1; n2; n3; n4] 8) = 1 ->
  In [m1; m2; m3; m4; n1; n2; n3; n4] out.
Proof.
  intros Hrun Hij Hci Hcj Ei Ej HM HN Hg.
  rewrite (find_unique_pairs_accepted cs out Hrun).
  assert (Hj : (j < length cs)%nat) by (apply nth_error_Some; congruence).
  apply in_flat_map. exists i. split; [apply in_seq; lia|].
  apply in_flat_map. exists j. split; [apply in_seq; lia|].
  rewrite Hci, Hcj. unfold accepted_pair. rewrite Ei, Ej.
  replace (m1 * m4 - m2 * m3 >? 0) with true by (symmetry; apply Z.gtb_lt; lia).
  replace (n1 * n4 - n2 * n3 >? 0) with true by (symmetry; apply Z.gtb_lt; lia).
  rewrite Hg. simpl. auto.
Qed.

Lemma find_unique_pairs_complete_witness :
  In [2; 0; 0; 1; 2; 0; 0; 1] [[2; 0; 0; 1; 2; 0; 0; 1]].
Proof.
  apply (find_unique_pairs_complete
           [[2; 0; 2; 0]; [0; 2; 0; 2]; [0; 1; 0; 1]; [1; 0; 1; 0]]
           [[2; 0; 0; 1; 2; 0; 0; 1]] 0 2 [2; 0; 2; 0] [0; 1; 0; 1]
           2 0 0 1 2 0 0 1); try reflexivity; lia.
Defined.

Lemma triangle_length {U : Type} (g : nat -> list U) (n k a : nat) :
  (a + k = n)%nat ->
  (forall i, (length (g i) <= n - (i + 1))%nat) ->
  (2 * length (flat_map g (seq a k)) <= k * (k - 1))%nat.
Proof.
  revert a. induction k as [|k IH]; simpl; intros a Hak Hg; [lia|].
  rewrite length_app. specialize (IH (S a) ltac:(lia) Hg).
  specialize (Hg a). rewrite Nat.sub_0_r. nia.
Qed.

(** X7: from [n] rows at most [n * (n - 1) / 2] tuples are returned, one per
    pair of positions at most. *)
Theorem find_unique_pairs_length (cs out : int2dvec_t) :
  find_unique_pairs cs = Some out ->
  (2 * length out <= length cs * (length cs - 1))%nat.
Proof.
  intros Hrun. rewrite (find_unique_pairs_accepted cs out Hrun).
  apply triangle_length with (n := length cs); [reflexivity|].
  intros i.
  pose proof (length_flat_map_le
    (fun j => match nth_error cs i, nth_error cs j with
              | Some ci, Some cj => accepted_pair ci cj
              | _, _ => []
              end) 1 (seq (i + 1) (length cs - (i + 1)))) as H.
  rewrite length_seq in H. rewrite Nat.mul_1_l in H. apply H.
  intros j _. destruct (nth_error cs i), (nth_error cs j); simpl; try lia.
  apply accepted_pair_length.
Qed.

Lemma find_unique_pairs_length_witness :
  (2 * length [[2; 0; 0; 1; 2; 0; 0; 1]] <= 4 * (4 - 1))%nat.
Proof.
  exact (find_unique_pairs_length
           [[2; 0; 2; 0]; [0; 2; 0; 2]; [0; 1; 0; 1]; [1; 0; 1; 0]]
           [[2; 0; 0; 1; 2; 0; 0; 1]] eq_refl).
Defined.

(** X8: the mirror of a returned tuple (the same two rows in the other
    order) is in no output of [find_unique_pairs], on any input: its
    determinants are negative. *)
Theorem find_unique_pairs_rejects_mirror
  (cs out : int2dvec_t) (t : int1dvec_t) (cs' out' : int2dvec_t) :
  find_unique_pairs cs = Some out -> In t out ->
  find_unique_pairs cs' = Some out' ->
  ~ In (mirror_pair t) out'.
Proof.
  intros Hrun Ht Hrun' Hin.
  apply find_unique_pairs_Forall in Hrun, Hrun'.
  rewrite Forall_forall in Hrun, Hrun'.
  destruct (Hrun _ Ht) as (i & j & ci & cj & m1 & m2 & m3 & m4 & n1 & n2 & n3 & n4 &
                           _ & _ & _ & _ & _ & -> & HM & _).
  destruct (Hrun' _ Hin) as (i' & j' & ci' & cj' & a1 & a2 & a3 & a4 & b1 & b2 & b3 &
                             b4 & _ & _ & _ & _ & _ & E & HM' & _).
  simpl in E. injection E as <- <- <- <- <- <- <- <-. lia.
Qed.

Lemma find_unique_pairs_rejects_mirror_witness :
  ~ In (mirror_pair [1; 0; 0; 1; 1; 0; 0; 1]) [[1; 0; 0; 1; 1; 0; 0; 1]].
Proof.
  apply (find_unique_pairs_rejects_mirror
           [[1; 0; 1; 0]; [0; 1; 0; 1]] [[1; 0; 0; 1; 1; 0; 0; 1]]
           [1; 0; 0; 1; 1; 0; 0; 1]
           [[1; 0; 1; 0]; [0; 1; 0; 1]] [[1; 0; 0; 1; 1; 0; 0; 1]]);
    [reflexivity | simpl; auto | reflexivity].
Defined.

(** ** Stages 1 and 2 composed *)

Section SearchThenPairs.

Variable double : Type.
Variable basis_2x2_dot_2d_vector : list (list double) -> int1dvec_t -> list double.
Variable rotate_2d_vector : list double -> double -> list double.
Variable get_distance : list double -> list double -> double.
Variable double_lt : double -> double -> bool.

Local Abbreviation find_coincidences :=
  (find_coincidences double basis_2x2_dot_2d_vector rotate_2d_vector get_distance
     double_lt).
Local Abbreviation emitted :=
  (emitted double basis_2x2_dot_2d_vector rotate_2d_vector get_distance double_lt).

(** X9: over a window the code can search ([window_ok]) that lies inside
    [(-2^15, 2^15)], [find_coincidences] returns a list on which
    [find_unique_pairs] runs without incident (every row has its four
    entries and no determinant leaves the range of [int]), and the
    components of the tuples it returns lie in the window. *)
Theorem search_then_pairs (A B : list (list double)) (theta tolerance : double)
  (Nmin Nmax : Z) :
  window_ok Nmin Nmax ->
  - 2 ^ 15 < Nmin -> Nmax < 2 ^ 15 ->
  exists out pairs : int2dvec_t,
    find_coincidences A B theta Nmin Nmax tolerance = Some out /\
    find_unique_pairs out = Some pairs /\
    (forall t, In t pairs -> Forall (fun x => Nmin <= x <= Nmax) t).
Proof.
  intros Hwin Hlo Hhi. change (2 ^ 15) with 32768 in Hlo, Hhi.
  set (out := emitted A B theta tolerance Nmin (Nmax + 1)).
  assert (Hrows : forall row, In row out ->
            exists i j k l, row = [i; j; k; l] /\
              Nmin <= i <= Nmax /\ Nmin <= j <= Nmax /\
              Nmin <= k <= Nmax /\ Nmin <= l <= Nmax).
  { intros row Hrow. apply emitted_In in Hrow.
    destruct Hrow as (i & j & k & l & Hr & -> & _). exists i, j, k, l.
    repeat split; lia. }
  assert (Hsmall : Forall small_row out).
  { apply Forall_forall. intros row Hrow.
    destruct (Hrows row Hrow) as (i & j & k & l & -> & Hi & Hj & Hk & Hl).
    exists i, j, k, l. change (2 ^ 15) with 32768.
    split; [reflexivity|]. repeat split; lia. }
  destruct (find_unique_pairs_defined out Hsmall) as (pairs & Hpairs).
  exists out, pairs.
  split; [apply find_coincidences_emitted; exact Hwin|].
  split; [exact Hpairs|].
  intros t Ht. apply find_unique_pairs_Forall in Hpairs.
  rewrite Forall_forall in Hpairs.
  destruct (Hpairs t Ht) as (i & j & ci & cj & m1 & m2 & m3 & m4 & n1 & n2 & n3 & n4 &
                             _ & Hci & Hcj & Ei & Ej & -> & _).
  apply nth_error_In in Hci, Hcj.
  destruct (Hrows ci Hci) as (a1 & a2 & a3 & a4 & -> & ? & ? & ? & ?).
  destruct (Hrows cj Hcj) as (b1 & b2 & b3 & b4 & -> & ? & ? & ? & ?).
  simpl in Ei, Ej. injection Ei as <- <- <- <-. injection Ej as <- <- <- <-.
  repeat constructor; lia.
Qed.

End SearchThenPairs.

Ltac window_solve := unfold window_ok, Int.min_int, Int.max_int; simpl; lia.

Lemma search_then_pairs_witness :
  exists out pairs : int2dvec_t,
    IEEE.find_coincidences cos_poly sin_poly I2 half_I2 0%float (-2) 2 0.25%float
    = Some out /\
    find_unique_pairs out = Some pairs /\
    (forall t, In t pairs -> Forall (fun x => -2 <= x <= 2) t).
Proof.
  apply (search_then_pairs float IEEE.basis_2x2_dot_2d_vector
           (IEEE.rotate_2d_vector cos_poly sin_poly) IEEE.get_distance
           PrimFloat.ltb I2 half_I2 0%float 0.25%float (-2) 2);
    window_solve.
Defined.

Lemma find_coincidences_point_window_witness :
  IEEE.find_coincidences cos_poly sin_poly I2 I2 0%float 0 0 0.5%float = Some [].
Proof.
  apply (find_coincidences_point_window float IEEE.basis_2x2_dot_2d_vector
           (IEEE.rotate_2d_vector cos_poly sin_poly) IEEE.get_distance
           PrimFloat.ltb I2 I2 0%float 0.5%float 0 0);
    window_solve.
Defined.

Lemma find_coincidences_NoDup_witness :
  exists out : int2dvec_t,
    IEEE.find_coincidences cos_poly sin_poly I2 half_I2 0%float (-2) 2 0.25%float
    = Some out /\ NoDup out.
Proof.
  apply (find_coincidences_NoDup float IEEE.basis_2x2_dot_2d_vector
           (IEEE.rotate_2d_vector cos_poly sin_poly) IEEE.get_distance
           PrimFloat.ltb I2 half_I2 0%float 0.25%float (-2) 2);
    window_solve.
Defined.

Lemma find_coincidences_length_witness :
  exists out : int2dvec_t,
    IEEE.find_coincidences cos_poly sin_poly I2 half_I2 0%float (-2) 2 0.25%float
    = Some out /\
    Z.of_nat (length out) <= (2 - -2 + 1) ^ 4 - (2 - -2 + 1).
Proof.
  apply (find_coincidences_length float IEEE.basis_2x2_dot_2d_vector
           (IEEE.rotate_2d_vector cos_poly sin_poly) IEEE.get_distance
           PrimFloat.ltb I2 half_I2 0%float 0.25%float (-2) 2);
    window_solve.
Defined.

Lemma find_coincidences_window_mono_witness :
  exists out out' : int2dvec_t,
    IEEE.find_coincidences cos_poly sin_poly I2 half_I2 0%float (-1) 1 0.25%float
    = Some out /\
    IEEE.find_coincidences cos_poly sin_poly I2 half_I2 0%float (-2) 2 0.25%float
    = Some out' /\
    incl out out'.
Proof.
  apply (find_coincidences_window_mono float IEEE.basis_2x2_dot_2d_vector
           (IEEE.rotate_2d_vector cos_poly sin_poly) IEEE.get_distance
           PrimFloat.ltb I2 half_I2 0%float 0.25%float (-1) 1 (-2) 2);
    window_solve.
Defined.

Lemma find_coincidences_tolerance_mono_witness :
  exists out1 out2 : int2dvec_t,
    IEEE.find_coincidences cos_poly sin_poly I2 half_I2 0%float (-2) 2 0.25%float
    = Some out1 /\
    IEEE.find_coincidences cos_poly sin_poly I2 half_I2 0%float (-2) 2 0.75%float
    = Some out2 /\
    incl out1 out2.
Proof.
  apply (find_coincidences_tolerance_mono IEEE.basis_2x2_dot_2d_vector
           (IEEE.rotate_2d_vector cos_poly sin_poly) IEEE.get_distance
           I2 half_I2 0%float (-2) 2 0.25%float 0.75%float);
    [window_solve | reflexivity].
Defined.

(** ** Stage 3: [build_all_supercells], further properties *)

Lemma StronglySorted_all {T : Type} (R : T -> T -> Prop) (l : list T) :
  (forall a b, In a l -> In b l -> R a b) -> StronglySorted R l.
Proof.
  induction l as [|x l IH]; intros H; constructor.
  - apply IH. intros a b Ha Hb. apply H; simpl; auto.
  - apply Forall_forall. intros y Hy. apply H; simpl; auto.
Qed.

Section SupercellBuilderMore.

Variable double : Type.
Variable Atoms : Type.
Variable make_supercell : Atoms -> int2dvec_t -> Atoms.
Variable rotate_atoms_around_z : Atoms -> double -> Atoms.
Variable stack_atoms : Atoms -> Atoms -> double -> double -> Atoms.
Variable standardize : Atoms -> Z -> Z -> double -> double -> Atoms * Z.

Local Abbreviation build_all_supercells :=
  (build_all_supercells double Atoms make_supercell rotate_atoms_around_z
     stack_atoms standardize).

Variables bottom top : Atoms.
Variables weight distance : double.
Variable no_idealize : Z.
Variables symprec angle_tolerance : double.

Local Abbreviation build AnglesMN :=
  (build_all_supercells bottom top AnglesMN weight distance no_idealize symprec
     angle_tolerance).
Local Abbreviation emitted_for :=
  (emitted_for double Atoms make_supercell rotate_atoms_around_z stack_atoms
     standardize bottom top weight distance no_idealize symprec angle_tolerance).
Local Abbreviation emitted_for_map :=
  (emitted_for_map double Atoms make_supercell rotate_atoms_around_z stack_atoms
     standardize bottom top weight distance no_idealize symprec angle_tolerance).

(** Every row of the map holds its eight components. *)
Local Abbreviation rows_ok AnglesMN :=
  (forall (theta : double) (pairs : int2dvec_t) (row : int1dvec_t),
     In (theta, pairs) AnglesMN -> In row pairs -> (8 <= length row)%nat).

Lemma emitted_for_length (theta : double) (row : int1dvec_t) :
  (length (emitted_for theta row) <= 1)%nat.
Proof.
  unfold emitted_for.
  destruct (firstn 8 row) as [|? [|? [|? [|? [|? [|? [|? [|? [|? ?]]]]]]]]];
    try (simpl; lia).
  match goal with |- context [if ?b then _ else _] => destruct b end; simpl; lia.
Qed.

(** X10: every Interface of the output is consistent with the pair it was
    built from: its angle is the angle of a map entry, [M] and [N] are the
    two 2x2 blocks of a row of that entry with the third axis left alone,
    the two layers are the supercells of [bottom] and [top] by [M] and [N]
    (the top one rotated by the angle), and the stacked structure and the
    space-group number are what standardization made of their stack. *)
Theorem build_all_supercells_provenance (AnglesMN : list (double * int2dvec_t)) :
  rows_ok AnglesMN ->
  exists out : list (Interface double Atoms),
    build AnglesMN = Some out /\
    forall s, In s out ->
      exists theta pairs row r0 r1 r2 r3 r4 r5 r6 r7,
        In (theta, pairs) AnglesMN /\ In row pairs /\
        firstn 8 row = [r0; r1; r2; r3; r4; r5; r6; r7] /\
        angle s = theta /\
        M s = [[r0; r1; 0]; [r2; r3; 0]; [0; 0; 1]] /\
        N s = [[r4; r5; 0]; [r6; r7; 0]; [0; 0; 1]] /\
        bottomLayer s = make_supercell bottom (M s) /\
        topLayer s = rotate_atoms_around_z (make_supercell top (N s)) theta /\
        (stack s, spaceGroup s)
        = standardize (stack_atoms (bottomLayer s) (topLayer s) weight distance)
            1 no_idealize symprec angle_tolerance.
Proof.
  intros Hrows. exists (emitted_for_map AnglesMN).
  split; [apply build_all_supercells_emitted; exact Hrows|].
  intros s Hs. unfold emitted_for_map in Hs.
  apply in_flat_map in Hs. destruct Hs as ([theta pairs] & Hentry & Hs).
  apply in_flat_map in Hs. destruct Hs as (row & Hrow & Hs). simpl in Hs.
  apply emitted_for_In in Hs.
  destruct Hs as (r0 & r1 & r2 & r3 & r4 & r5 & r6 & r7 & Hfirst & -> & _).
  exists theta, pairs, row, r0, r1, r2, r3, r4, r5, r6, r7.
  repeat split; try assumption. simpl.
  unfold spacegroup_of, stacked. symmetry. apply surjective_pairing.
Qed.

(** X11: the output is no longer than the number of pairs of the map. *)
Theorem build_all_supercells_length (AnglesMN : list (double * int2dvec_t)) :
  rows_ok AnglesMN ->
  exists out : list (Interface double Atoms),
    build AnglesMN = Some out /\
    (length out <= length (flat_map snd AnglesMN))%nat.
Proof.
  intros Hrows. exists (emitted_for_map AnglesMN).
  split; [apply build_all_supercells_emitted; exact Hrows|].
  clear Hrows. unfold emitted_for_map.
  induction AnglesMN as [|[theta pairs] rest IH]; simpl; [lia|].
  rewrite !length_app.
  pose proof (length_flat_map_le (emitted_for theta) 1 pairs
                (fun row _ => emitted_for_length theta row)) as H.
  rewrite Nat.mul_1_l in H. apply Nat.add_le_mono; [exact H | exact IH].
Qed.

(** X12: the builder works entry by entry: the output for two maps put end
    to end is the output for the first followed by the output for the
    second. *)
Theorem build_all_supercells_app (map1 map2 : list (double * int2dvec_t)) :
  rows_ok map1 -> rows_ok map2 ->
  exists out1 out2 : list (Interface double Atoms),
    build map1 = Some out1 /\ build map2 = Some out2 /\
    build (map1 ++ map2) = Some (out1 ++ out2).
Proof.
  intros H1 H2. exists (emitted_for_map map1), (emitted_for_map map2).
  split; [apply build_all_supercells_emitted; exact H1|].
  split; [apply build_all_supercells_emitted; exact H2|].
  rewrite build_all_supercells_emitted.
  - unfold emitted_for_map. rewrite flat_map_app. reflexivity.
  - intros theta pairs row Hentry. apply in_app_or in Hentry.
    destruct Hentry as [Hentry|Hentry]; [eapply H1 | eapply H2]; exact Hentry.
Qed.

(** X13: the interfaces come out in the order of the map: when the angles of
    the entries increase strictly for a relation [R] (as the keys of a
    [std::map] do), the angles of the output never decrease. *)
Theorem build_all_supercells_angle_order (R : double -> double -> Prop)
  (AnglesMN : list (double * int2dvec_t)) :
  rows_ok AnglesMN ->
  StronglySorted (fun e1 e2 => R (fst e1) (fst e2)) AnglesMN ->
  exists out : list (Interface double Atoms),
    build AnglesMN = Some out /\
    forall (n m : nat) (s1 s2 : Interface double Atoms),
      (n < m)%nat -> nth_error out n = Some s1 -> nth_error out m = Some s2 ->
      angle s1 = angle s2 \/ R (angle s1) (angle s2).
Proof.
  intros Hrows Hsorted. exists (emitted_for_map AnglesMN).
  split; [apply build_all_supercells_emitted; exact Hrows|].
  assert (Hangle : forall theta pairs s,
            In s (flat_map (emitted_for theta) pairs) -> angle s = theta).
  { intros theta pairs s Hs. apply in_flat_map in Hs. destruct Hs as (row & _ & Hs).
    apply emitted_for_In in Hs.
    destruct Hs as (r0 & r1 & r2 & r3 & r4 & r5 & r6 & r7 & _ & -> & _).
    reflexivity. }
  apply StronglySorted_nth_error. unfold emitted_for_map.
  eapply StronglySorted_flat_map; [exact Hsorted| |].
  - intros [theta pairs] _. simpl. apply StronglySorted_all.
    intros a b Ha Hb. left.
    rewrite (Hangle theta pairs a Ha), (Hangle theta pairs b Hb). reflexivity.
  - intros [t1 p1] [t2 p2] u v HR Hu Hv. simpl in *. right.
    rewrite (Hangle t1 p1 u Hu), (Hangle t2 p2 v Hv). exact HR.
Qed.

(** X14: stages 2 and 3 composed.  On a map whose lists of pairs were all
    returned by [find_unique_pairs], the builder never reads past the end of
    a row, and the [M] and [N] of every Interface it returns have positive
    2x2 determinants. *)
Theorem pairs_then_build (AnglesMN : list (double * int2dvec_t)) :
  (forall theta pairs, In (theta, pairs) AnglesMN ->
     exists cs, find_unique_pairs cs = Some pairs) ->
  exists out : list (Interface double Atoms),
    build AnglesMN = Some out /\
    forall s, In s out ->
      exists m1 m2 m3 m4 n1 n2 n3 n4 : Z,
        M s = [[m1; m2; 0]; [m3; m4; 0]; [0; 0; 1]] /\
        N s = [[n1; n2; 0]; [n3; n4; 0]; [0; 0; 1]] /\
        m1 * m4 - m2 * m3 > 0 /\ n1 * n4 - n2 * n3 > 0.
Proof.
  intros Hpairs.
  assert (Hformed : forall theta pairs row,
            In (theta, pairs) AnglesMN -> In row pairs ->
            exists cs, formed_from cs row).
  { intros theta pairs row Hentry Hrow.
    destruct (Hpairs theta pairs Hentry) as (cs & Hcs). exists cs.
    apply find_unique_pairs_Forall in Hcs. rewrite Forall_forall in Hcs. auto. }
  exists (emitted_for_map AnglesMN). split.
  - apply build_all_supercells_emitted. intros theta pairs row Hentry Hrow.
    destruct (Hformed theta pairs row Hentry Hrow)
      as (cs & i & j & ci & cj & m1 & m2 & m3 & m4 & n1 & n2 & n3 & n4 &
          _ & _ & _ & _ & _ & -> & _).
    simpl. lia.
  - intros s Hs. unfold emitted_for_map in Hs.
    apply in_flat_map in Hs. destruct Hs as ([theta pairs] & Hentry & Hs).
    apply in_flat_map in Hs. destruct Hs as (row & Hrow & Hs). simpl in Hs.
    destruct (Hformed theta pairs row Hentry Hrow)
      as (cs & i & j & ci & cj & m1 & m2 & m3 & m4 & n1 & n2 & n3 & n4 &
          _ & _ & _ & _ & _ & -> & HM & HN & _).
    apply emitted_for_In in Hs.
    destruct Hs as (r0 & r1 & r2 & r3 & r4 & r5 & r6 & r7 & Hfirst & -> & _).
    simpl in Hfirst. injection Hfirst as <- <- <- <- <- <- <- <-.
    exists m1, m2, m3, m4, n1, n2, n3, n4. simpl. auto.
Qed.

End SupercellBuilderMore.

Lemma Toy_angles_rows (theta : Z) (pairs : int2dvec_t) (row : int1dvec_t) :
  In (theta, pairs) (Toy.angles ++ [(60, [[1; 0; 0; 2; 1; 0; 0; 1]])]) ->
  In row pairs -> (8 <= length row)%nat.
Proof.
  simpl. intros [E|[E|[]]] Hrow; injection E as <- <-; simpl in Hrow;
    repeat (destruct Hrow as [<-|Hrow]; [simpl; lia|]); destruct Hrow.
Qed.

Lemma build_all_supercells_provenance_witness :
  exists out : list (Interface Z Toy.Atoms),
    Toy.build (1, 1) (1, 2) Toy.angles = Some out /\
    forall s, In s out -> angle s = 30.
Proof.
  destruct (build_all_supercells_provenance Z Toy.Atoms Toy.make_supercell
              Toy.rotate_atoms_around_z Toy.stack_atoms Toy.standardize
              (1, 1) (1, 2) 0 3 0 1 5 Toy.angles) as (out & Hrun & Hprov).
  - intros theta pairs row Hentry. apply (Toy_angles_rows theta pairs row).
    apply in_or_app. left. exact Hentry.
  - exists out. split; [exact Hrun|]. intros s Hs.
    destruct (Hprov s Hs) as (theta & pairs & row & r0 & r1 & r2 & r3 & r4 & r5 & r6 &
                              r7 & [E|[]] & _ & _ & -> & _).
    injection E as <- _. reflexivity.
Defined.

Lemma build_all_supercells_length_witness :
  exists out : list (Interface Z Toy.Atoms),
    Toy.build (1, 1) (1, 2) Toy.angles = Some out /\ (length out <= 3)%nat.
Proof.
  apply (build_all_supercells_length Z Toy.Atoms Toy.make_supercell
           Toy.rotate_atoms_around_z Toy.stack_atoms Toy.standardize
           (1, 1) (1, 2) 0 3 0 1 5 Toy.angles).
  intros theta pairs row Hentry. apply (Toy_angles_rows theta pairs row).
  apply in_or_app. left. exact Hentry.
Defined.

Lemma build_all_supercells_app_witness :
  exists out1 out2 : list (Interface Z Toy.Atoms),
    Toy.build (1, 1) (1, 2) Toy.angles = Some out1 /\
    Toy.build (1, 1) (1, 2) [(60, [[1; 0; 0; 2; 1; 0; 0; 1]])] = Some out2 /\
    Toy.build (1, 1) (1, 2) (Toy.angles ++ [(60, [[1; 0; 0; 2; 1; 0; 0; 1]])])
    = Some (out1 ++ out2).
Proof.
  apply (build_all_supercells_app Z Toy.Atoms Toy.make_supercell
           Toy.rotate_atoms_around_z Toy.stack_atoms Toy.standardize
           (1, 1) (1, 2) 0 3 0 1 5 Toy.angles [(60, [[1; 0; 0; 2; 1; 0; 0; 1]])]).
  - intros theta pairs row Hentry. apply (Toy_angles_rows theta pairs row).
    apply in_or_app. left. exact Hentry.
  - intros theta pairs row Hentry. apply (Toy_angles_rows theta pairs row).
    apply in_or_app. right. exact Hentry.
Defined.

Lemma build_all_supercells_angle_order_witness :
  exists out : list (Interface Z Toy.Atoms),
    Toy.build (1, 1) (1, 2) (Toy.angles ++ [(60, [[1; 0; 0; 2; 1; 0; 0; 1]])])
    = Some out /\
    forall (n m : nat) (s1 s2 : Interface Z Toy.Atoms),
      (n < m)%nat -> nth_error out n = Some s1 -> nth_error out m = Some s2 ->
      angle s1 = angle s2 \/ angle s1 < angle s2.
Proof.
  apply (build_all_supercells_angle_order Z Toy.Atoms Toy.make_supercell
           Toy.rotate_atoms_around_z Toy.stack_atoms Toy.standardize
           (1, 1) (1, 2) 0 3 0 1 5 Z.lt
           (Toy.angles ++ [(60, [[1; 0; 0; 2; 1; 0; 0; 1]])]) Toy_angles_rows).
  simpl. repeat constructor.
Defined.

Lemma pairs_then_build_witness :
  exists out : list (Interface Z Toy.Atoms),
    Toy.build (1, 1) (1, 1) [(30, [[1; 0; 0; 1; 1; 0; 0; 1]])] = Some out /\
    forall s, In s out ->
      exists m1 m2 m3 m4 n1 n2 n3 n4 : Z,
        M s = [[m1; m2; 0]; [m3; m4; 0]; [0; 0; 1]] /\
        N s = [[n1; n2; 0]; [n3; n4; 0]; [0; 0; 1]] /\
        m1 * m4 - m2 * m3 > 0 /\ n1 * n4 - n2 * n3 > 0.
Proof.
  apply (pairs_then_build Z Toy.Atoms Toy.make_supercell
           Toy.rotate_atoms_around_z Toy.stack_atoms Toy.standardize
           (1, 1) (1, 1) 0 3 0 1 5 [(30, [[1; 0; 0; 1; 1; 0; 0; 1]])]).
  intros theta pairs [E|[]]. injection E as <- <-.
  exists [[1; 0; 1; 0]; [0; 1; 0; 1]]. reflexivity.
Defined.

Example pairs_then_build_ex :
  Toy.build (1, 1) (1, 1) [(30, [[1; 0; 0; 1; 1; 0; 0; 1]])]
  = Some [ mkInterface (1, 1) (1, 1) (1, 2) 30
             [[1; 0; 0]; [0; 1; 0]; [0; 0; 1]] [[1; 0; 0]; [0; 1; 0]; [0; 0; 1]] 2 ].
Proof. reflexivity. Qed.

(** ** Stage 4: [filter_supercells], further properties *)

Section DeduplicationMore.

Variable Interface_t : Type.
Variable Interface_lt : Interface_t -> Interface_t -> bool.

Local Abbreviation set_insert := (set_insert Interface_t Interface_lt).
Local Abbreviation filter_supercells := (filter_supercells Interface_t Interface_lt).
Local Abbreviation lt := (fun a b => Interface_lt a b = true).
(** Equivalent for the set: neither is smaller than the other. *)
Local Abbreviation equiv a b :=
  (Interface_lt a b = false /\ Interface_lt b a = false).

Lemma filter_supercells_app (l1 l2 : list Interface_t) :
  filter_supercells (l1 ++ l2)
  = fold_left (fun s x => set_insert x s) l2 (filter_supercells l1).
Proof. apply fold_left_app. Qed.

(** X15: the representative of a class of equivalent interfaces is the
    first one of the input: an element with no equivalent element before it
    in the input is in the output. *)
Theorem filter_supercells_first_wins (l1 l2 : list Interface_t) (x : Interface_t) :
  (forall y, In y l1 -> Interface_lt x y = true \/ Interface_lt y x = true) ->
  In x (filter_supercells (l1 ++ x :: l2)).
Proof.
  intros Hnew. rewrite filter_supercells_app. simpl.
  apply set_of_range_fold_keeps.
  destruct (set_insert_represents _ Interface_lt x (filter_supercells l1))
    as [H|(y & Hy & Hxy & Hyx)]; [exact H|].
  destruct (set_insert_In _ Interface_lt x y _ Hy) as [->|Hy1]; [exact Hy|].
  apply set_of_range_fold in Hy1. destruct Hy1 as [Hy1|[]].
  destruct (Hnew y Hy1); congruence.
Qed.

(** What [std::set] asks of its comparison: a strict weak ordering. *)
Hypothesis lt_irrefl : forall a, Interface_lt a a = false.
Hypothesis lt_trans :
  forall a b c, Interface_lt a b = true -> Interface_lt b c = true ->
                Interface_lt a c = true.
Hypothesis lt_cotrans :
  forall a b c, Interface_lt a b = true ->
                Interface_lt a c = true \/ Interface_lt c b = true.

(** X16: the output is in strictly increasing order for [operator<]: of two
    interfaces of the output, the one at the earlier position is smaller. *)
Theorem filter_supercells_increasing (stacks : list Interface_t) :
  forall (n m : nat) (a b : Interface_t),
    (n < m)%nat ->
    nth_error (filter_supercells stacks) n = Some a ->
    nth_error (filter_supercells stacks) m = Some b ->
    Interface_lt a b = true.
Proof.
  apply (StronglySorted_nth_error lt).
  apply (filter_supercells_sorted _ _ lt_trans).
Qed.

(** X17: an input that is already strictly increasing is returned as it
    is. *)
Theorem filter_supercells_sorted_input (stacks : list Interface_t) :
  StronglySorted lt stacks -> filter_supercells stacks = stacks.
Proof.
  intros Hs.
  apply (set_of_range_sorted_fold _ _ lt_irrefl lt_trans stacks []). exact Hs.
Qed.

(** X18: filtering in batches gives the same result: the filtered first
    batch followed by the second batch filters to what the two batches
    filter to. *)
Theorem filter_supercells_batches (l1 l2 : list Interface_t) :
  filter_supercells (filter_supercells l1 ++ l2) = filter_supercells (l1 ++ l2).
Proof.
  rewrite !filter_supercells_app. f_equal.
  apply (set_of_range_sorted_fold _ _ lt_irrefl lt_trans (filter_supercells l1) []).
  apply (filter_supercells_sorted _ _ lt_trans).
Qed.

Lemma equiv_trans (a b c : Interface_t) : equiv a b -> equiv b c -> equiv a c.
Proof.
  intros [Hab Hba] [Hbc Hcb]. split.
  - destruct (Interface_lt a c) eqn:E; [|reflexivity].
    destruct (lt_cotrans a c b E); congruence.
  - destruct (Interface_lt c a) eqn:E; [|reflexivity].
    destruct (lt_cotrans c a b E); congruence.
Qed.

(** Inserting an element equivalent to one of the set changes nothing. *)
Lemma set_insert_equivalent (x y : Interface_t) (s : list Interface_t) :
  StronglySorted lt s -> In y s -> equiv x y -> set_insert x s = s.
Proof.
  induction 1 as [|z s Hs IH Hz]; simpl; intros Hy [Hxy Hyx]; [tauto|].
  rewrite Forall_forall in Hz. destruct Hy as [->|Hy].
  - rewrite Hxy, Hyx. reflexivity.
  - specialize (Hz y Hy). simpl in Hz.
    assert (Hxz : Interface_lt x z = false).
    { destruct (Interface_lt x z) eqn:E; [|reflexivity].
      rewrite (lt_trans x z y E Hz) in Hxy. discriminate. }
    assert (Hzx : Interface_lt z x = true).
    { destruct (lt_cotrans z y x Hz) as [H|H]; [exact H | congruence]. }
    rewrite Hxz, Hzx, IH; auto.
Qed.

(** X19: elements that come after an equivalent element never change the
    result: when every element of [l2] is equivalent to an element of [l1],
    [l1 ++ l2] filters to what [l1] filters to. *)
Theorem filter_supercells_late_duplicates (l1 l2 : list Interface_t) :
  (forall x, In x l2 -> exists y, In y l1 /\ equiv x y) ->
  filter_supercells (l1 ++ l2) = filter_supercells l1.
Proof.
  intros Hdup. rewrite filter_supercells_app.
  induction l2 as [|x l2 IH]; simpl; [reflexivity|].
  destruct (Hdup x (or_introl eq_refl)) as (y & Hy & Hxy).
  assert (Hrep : exists z, In z (filter_supercells l1) /\ equiv x z).
  { destruct (set_of_range_fold_represents _ Interface_lt l1 [] y Hy)
      as [H|(z & Hz & Hyz)].
    - exists y. split; [exact H | exact Hxy].
    - exists z. split; [exact Hz|]. apply (equiv_trans x y z); assumption. }
  destruct Hrep as (z & Hz & Hxz).
  rewrite (set_insert_equivalent x z (filter_supercells l1)
             (filter_supercells_sorted _ _ lt_trans l1) Hz Hxz).
  apply IH. intros x' Hx'. apply Hdup. simpl. auto.
Qed.

End DeduplicationMore.

(** Runs of the filter on integers compared by their tens. *)

Lemma tens_ltb_irrefl (a : Z) : tens_ltb a a = false.
Proof. apply Z.ltb_irrefl. Qed.

Lemma tens_ltb_trans (a b c : Z) :
  tens_ltb a b = true -> tens_ltb b c = true -> tens_ltb a c = true.
Proof. unfold tens_ltb. rewrite !Z.ltb_lt. lia. Qed.

Lemma tens_ltb_cotrans (a b c : Z) :
  tens_ltb a b = true -> tens_ltb a c = true \/ tens_ltb c b = true.
Proof. unfold tens_ltb. rewrite !Z.ltb_lt. lia. Qed.

Example filter_supercells_ex_tens :
  filter_supercells Z tens_ltb [31; 12; 35; 18; 7; 30] = [7; 12; 31].
Proof. reflexivity. Qed.

Lemma filter_supercells_first_wins_witness :
  In 31 (filter_supercells Z tens_ltb ([12; 7] ++ 31 :: [35; 18; 30])).
Proof.
  apply (filter_supercells_first_wins Z tens_ltb [12; 7] [35; 18; 30] 31).
  intros y [<-|[<-|[]]]; [right | right]; reflexivity.
Defined.

Lemma filter_supercells_increasing_witness :
  tens_ltb 7 31 = true.
Proof.
  apply (filter_supercells_increasing Z tens_ltb tens_ltb_trans
           [31; 12; 35; 18; 7; 30] 0 2 7 31); [lia | reflexivity | reflexivity].
Defined.

Lemma filter_supercells_sorted_input_witness :
  filter_supercells Z tens_ltb [7; 12; 31] = [7; 12; 31].
Proof.
  apply (filter_supercells_sorted_input Z tens_ltb tens_ltb_irrefl tens_ltb_trans).
  repeat constructor.
Defined.

Lemma filter_supercells_batches_witness :
  filter_supercells Z tens_ltb (filter_supercells Z tens_ltb [31; 12; 35] ++ [18; 7; 30])
  = filter_supercells Z tens_ltb ([31; 12; 35] ++ [18; 7; 30]).
Proof.
  exact (filter_supercells_batches Z tens_ltb tens_ltb_irrefl tens_ltb_trans
           [31; 12; 35] [18; 7; 30]).
Defined.

Lemma filter_supercells_late_duplicates_witness :
  filter_supercells Z tens_ltb ([31; 12; 7] ++ [35; 18; 30])
  = filter_supercells Z tens_ltb [31; 12; 7].
Proof.
  apply (filter_supercells_late_duplicates Z tens_ltb tens_ltb_trans
           tens_ltb_cotrans [31; 12; 7] [35; 18; 30]).
  intros x [<-|[<-|[<-|[]]]].
  - exists 31. simpl. auto.
  - exists 12. simpl. auto.
  - exists 31. simpl. auto.
Defined.
